(** * utils::buffer_serializer / utils::buffer_deserializer

    A shallow embedding of [src/emulator/serialization.hpp] and the
    properties of its wire format.

    - A byte is [Byte.byte]; a [std::vector<std::byte>] or a
      [std::span<const std::byte>] is a [list byte].
    - [size_t] and [uint64_t] are 64 bits wide and are modelled in [Z] with
      the wrap-around of every addition written out ([size_t]); the host
      is little endian.
    - Allocation does not fail: [insert], [reserve] and [emplace_back]
      never throw [std::bad_alloc]. What [reserve] throws by rule, the
      [std::length_error] above [max_size()], is modelled; [max_size()] is
      the implementation's and is a parameter of the readers that reserve.
    - A function returns the new value of its out-parameter when it
      returns; what a throw leaves in the caller's object is not modelled.
    - A member function that mutates [*this] and may throw is a function
      from the object's state to an outcome and the state the exception (or
      the return) leaves behind: the monad [M].
    - Every exception the header throws itself is a [std::runtime_error];
      the four messages are the first four constructors of [error]. *)

From Stdlib Require Import ZArith Lia.
From Stdlib Require Import Strings.Byte.
From stdpp Require Import base tactics option list gmap strings fin_maps.

Local Open Scope Z_scope.

(** ** Machine integers and bytes *)

Definition size_t (z : Z) : Z := z mod 2 ^ 64.

Definition Z_of_byte (b : byte) : Z := Z.of_N (Byte.to_N b).

(** [static_cast<uint8_t>(z)]: the low eight bits. *)
Definition uint8_t (z : Z) : byte :=
  match Byte.of_N (Z.to_N (z mod 256)) with
  | Some b => b
  | None => x00
  end.

(** The object representation of an [n]-byte unsigned integer (the header
    copies it with [memcpy]; the host is little endian). *)
Fixpoint to_bytes (n : nat) (z : Z) : list byte :=
  match n with
  | O => []
  | S n' => uint8_t z :: to_bytes n' (z / 256)
  end.

Fixpoint of_bytes (bs : list byte) : Z :=
  match bs with
  | [] => 0
  | b :: bs' => Z_of_byte b + 256 * of_bytes bs'
  end.

#[global] Instance byte_eq_dec : EqDecision byte := Byte.byte_eq_dec.

(** ** Exceptions and the state-and-exception monad *)

Inductive error : Type :=
  | BreakOffsetError                      (* "Break offset reached!" *)
  | BoundsError                           (* "Out of bounds read from byte buffer" *)
  | FramingCorruptionError                (* "Reading from serialized buffer mismatches written data!" *)
  | ConstructionError (type_name : string) (* "Object construction failed. Missing factory for type: " + name *)
  | LengthError.                          (* the std::length_error of reserve *)

Definition M (S A : Type) : Type := S → (error + A) * S.

#[global] Instance M_ret {S} : MRet (M S) := λ A x s, (inr x, s).

#[global] Instance M_bind {S} : MBind (M S) := λ A B f m s,
  match m s with
  | (inr x, s') => f x s'
  | (inl e, s') => (inl e, s')
  end.

Definition throw {S A} (e : error) : M S A := λ s, (inl e, s).

(** A range-based [for] whose body may throw. *)
Fixpoint for_each {S A} (body : A → M S unit) (range : list A) : M S unit :=
  match range with
  | [] => mret ()
  | v :: range' => body v ;; for_each body range'
  end.

(** ** Objects

    The values the typed [write]/[read] handle without user code: a
    trivially copyable object is its [sizeof] bytes, [bool] and the string
    types have explicit specialisations. A string is the sequence of its
    character units, each one a trivially copyable object. *)

Inductive object_t : Type :=
  | Trivial (repr : list byte)
  | Boolean (b : bool)
  | String_ (chars : list (list byte)).

#[global] Instance object_eq_dec : EqDecision object_t.
Proof. solve_decision. Defined.

Definition as_bytes (o : object_t) : list byte :=
  match o with Trivial r => r | _ => [] end.

Definition as_bool (o : object_t) : bool :=
  match o with Boolean b => b | _ => false end.

(** ** class buffer_serializer *)

Module buffer_serializer.

Record t : Type := mk {
  buffer_ : list byte;
  break_offset_ : option Z;
}.

(** [buffer_serializer() = default] *)
Definition init : t := mk [] None.

Definition get_buffer (this : t) : list byte := buffer_ this.

Definition move_buffer (this : t) : list byte * t :=
  (buffer_ this, mk [] (break_offset_ this)).

Definition set_break_offset (break_offset : Z) (this : t) : t :=
  mk (buffer_ this) (Some break_offset).

(** [void write(const void* buffer, const size_t length)]; the memory
    [buffer, buffer + length) is the list [buffer]. *)
Definition write (buffer : list byte) : M t unit := λ this,
  let length := Z.of_nat (length buffer) in
  let old_size_remainder := uint8_t length in
  let check_size := 1 in
  let size := Z.of_nat (List.length (buffer_ this)) in
  if match break_offset_ this with
     | Some break_offset =>
         (size <=? break_offset) &&
         (break_offset <? size_t (size_t (size + length) + check_size))
     | None => false
     end
  then throw BreakOffsetError this
  else (inr (), mk (buffer_ this ++ [old_size_remainder] ++ buffer) (break_offset_ this)).

(** [void write(const buffer_serializer& object)], [object] being another
    encoder than [*this]. *)
Definition write_serializer (object : t) : M t unit :=
  let buffer := get_buffer object in
  write buffer.

(** [write<uint64_t>]: the trivially copyable branch at eight bytes. *)
Definition write_uint64_t (v : Z) : M t unit := write (to_bytes 8 v).

(** [template <typename T> void write_span(const std::span<T> vec)],
    generic in [T] and in what [this->write(v)] resolves to for it. *)
Definition write_span {T} (write_T : T → M t unit) (vec : list T) : M t unit :=
  write_uint64_t (size_t (Z.of_nat (List.length vec))) ;;
  for_each write_T vec.

(** [write_string]: the span of the character units, each written by the
    trivially copyable branch. *)
Definition write_string (str : list (list byte)) : M t unit :=
  write_span write str.

(** [write<bool>]: [this->write<uint8_t>(object ? 1 : 0)]. *)
Definition write_bool (object : bool) : M t unit :=
  write [if object then x01 else x00].

(** [template <typename T> void write(const T& object)] at the types of
    [object_t]: the trivially copyable branch writes the [sizeof(object)]
    bytes of the object; [bool] and the strings have specialisations. *)
Definition write_T (object : object_t) : M t unit :=
  match object with
  | Trivial repr => write repr
  | Boolean b => write_bool b
  | String_ chars => write_string chars
  end.

Section derived.
Context {T : Type} (write_T : T → M t unit).

Definition write_atomic (val : T) : M t unit := write_T val.

Definition write_optional (val : option T) : M t unit :=
  write_bool (bool_decide (is_Some val)) ;;
  match val with
  | Some v => write_T v
  | None => mret ()
  end.

Definition write_vector (vec : list T) : M t unit := write_span write_T vec.

Definition write_list (vec : list T) : M t unit :=
  write_uint64_t (size_t (Z.of_nat (List.length vec))) ;;
  for_each write_T vec.
End derived.

Section map.
Context {K V : Type}.
Context (write_K : K → M t unit) (write_V : V → M t unit).

(** [template <typename Map> void write_map(const Map& map)]. The
    container is the list of its entries in the order its iterators give
    them (for a [std::map], the order of the keys under its comparator):
    [map.size()] is their number and the loop visits them in that order. *)
Definition write_map (map : list (K * V)) : M t unit :=
  write_uint64_t (size_t (Z.of_nat (length map))) ;;
  for_each (λ entry, write_K entry.1 ;; write_V entry.2) map.
End map.

(** The loop of [get_diff]; [n] bounds the iterations left ([i < s1]
    holds in the body, so [s1] of them are enough). *)
Fixpoint get_diff_loop (b1 b2 : list byte) (n i : nat) : option nat :=
  match n with
  | O => None
  | S n' =>
      if ((i <? List.length b1) && (i <? List.length b2))%nat
      then if decide (b1 !! i ≠ b2 !! i) then Some i
           else get_diff_loop b1 b2 n' (S i)
      else None
  end.

Definition get_diff (this other : t) : option nat :=
  let b1 := get_buffer this in
  let b2 := get_buffer other in
  let s1 := List.length b1 in
  let s2 := List.length b2 in
  match get_diff_loop b1 b2 s1 0 with
  | Some i => Some i
  | None => if decide (s1 ≠ s2) then Some (s1 `min` s2)%nat else None
  end.

End buffer_serializer.

(** ** class buffer_deserializer *)

Module buffer_deserializer.

(** [factories_] maps a [std::type_index] (a type, named by [typeid]) to
    a closure returning the object it allocates. *)
Record t : Type := mk {
  offset_ : Z;
  buffer_ : list byte;
  factories_ : gmap string (unit → object_t);
}.

(** [buffer_deserializer(const std::span<T> buffer)] *)
Definition init (buffer : list byte) : t := mk 0 buffer ∅.

(** [buffer_deserializer(const buffer_serializer& serializer)] *)
Definition of_serializer (serializer : buffer_serializer.t) : t :=
  init (buffer_serializer.get_buffer serializer).

Definition size (this : t) : Z := Z.of_nat (length (buffer_ this)).

(** [std::span<const std::byte> read_data(const size_t length)]. The
    marker is read after the bounds check, which keeps [offset_] within
    the source unless a sum wrapped; the view is returned as the bytes it
    covers. *)
Definition read_data (length : Z) : M t (list byte) := λ this,
  let length_rest := uint8_t length in
  let check_size := 1 in
  if size this <? size_t (offset_ this + size_t (length + check_size))
  then throw BoundsError this
  else if decide (buffer_ this !! Z.to_nat (offset_ this) ≠ Some length_rest)
  then throw FramingCorruptionError this
  else
    let offset1 := size_t (offset_ this + check_size) in
    let result := take (Z.to_nat length) (drop (Z.to_nat offset1) (buffer_ this)) in
    (inr result, mk (size_t (offset1 + length)) (buffer_ this) (factories_ this)).

(** [void read(void* data, const size_t length)]: the bytes [memcpy]
    leaves at [data]. *)
Definition read_raw (length : Z) : M t (list byte) :=
  span ← read_data length; mret span.

Definition get_remaining_size (this : t) : Z := size_t (size this - offset_ this).

Definition get_remaining_data : M t (list byte) := λ this,
  read_data (get_remaining_size this) this.

Definition get_offset (this : t) : Z := offset_ this.

(** What the templates ask of a trivially copyable [T]: [typeid(T)],
    [sizeof(T)], [T(buffer_deserializer&)] when there is one, and the
    value-initialised [T] when [T] is default constructible. *)
Record class_ : Type := {
  type_name : string;
  sizeof : nat;
  deserializer_constructor : option (M t object_t);
  default_constructor : option object_t;
}.

Definition scalar (name : string) (n : nat) : class_ :=
  {| type_name := name; sizeof := n;
     deserializer_constructor := None;
     default_constructor := Some (Trivial (replicate n x00)) |}.

Definition uint8_t_ : class_ := scalar "uint8_t" 1.
Definition uint64_t_ : class_ := scalar "uint64_t" 8.
Definition int32_t_ : class_ := scalar "int32_t" 4.
Definition char_ : class_ := scalar "char" 1.
Definition char16_t_ : class_ := scalar "char16_t" 2.
Definition wchar_t_ (n : nat) : class_ := scalar "wchar_t" n.

Inductive type : Type :=
  | trivially_copyable (T : class_)
  | bool_
  | basic_string (CharT : class_) (max_size : Z).

Definition type_index (T : type) : string :=
  match T with
  | trivially_copyable C => type_name C
  | bool_ => "bool"
  | basic_string C _ => "basic_string<" +:+ type_name C +:+ ">"
  end.

(** [detail::has_deserializer_constructor<T>] with the constructor. *)
Definition has_deserializer_constructor (T : type) : option (M t object_t) :=
  match T with
  | trivially_copyable C => deserializer_constructor C
  | bool_ | basic_string _ _ => None
  end.

(** [std::is_default_constructible_v<T>] with the value of [T{}]. *)
Definition is_default_constructible (T : type) : option object_t :=
  match T with
  | trivially_copyable C => default_constructor C
  | bool_ => Some (Boolean false)
  | basic_string _ _ => Some (String_ [])
  end.

(** [template <typename T, typename F> void register_factory(F factory)] *)
Definition register_factory (T : type) (factory : unit → object_t) (this : t) : t :=
  mk (offset_ this) (buffer_ this) (<[type_index T := factory]> (factories_ this)).

(** [template <typename T> T construct_object()] *)
Definition construct_object (T : type) : M t object_t :=
  match has_deserializer_constructor T with
  | Some constructor => constructor
  | None =>
      match is_default_constructible T with
      | Some value => mret value
      | None => λ this,
          match factories_ this !! type_index T with
          | None => throw (ConstructionError (type_index T)) this
          | Some factory => (inr (factory ()), this)
          end
      end
  end.

(** [read(T& object)] in its [is_trivially_copyable] branch. *)
Definition read_trivially_copyable (C : class_) (object : object_t) : M t object_t :=
  data ← read_raw (Z.of_nat (sizeof C)); mret (Trivial data).

(** [T read()] at a trivially copyable [T]. *)
Definition read_new_trivially_copyable (C : class_) : M t object_t :=
  object ← construct_object (trivially_copyable C);
  read_trivially_copyable C object.

Definition read_uint8_t : M t Z :=
  v ← read_new_trivially_copyable uint8_t_; mret (of_bytes (as_bytes v)).

Definition read_uint64_t : M t Z :=
  v ← read_new_trivially_copyable uint64_t_; mret (of_bytes (as_bytes v)).

(** [for (uint64_t i = 0; i < size; ++i) result.emplace_back(...)] with
    [n] iterations left. *)
Fixpoint read_loop {T R} (read_T : M t T) (push : R → T → R) (n : nat) (result : R)
  : M t R :=
  match n with
  | O => mret result
  | S n' => v ← read_T; read_loop read_T push n' (push result v)
  end.

(** [result.reserve(static_cast<size_t>(size))] of a vector or a string
    whose [max_size()] is [max_size]: [std::length_error] above it. *)
Definition reserve (max_size size : Z) : M t unit :=
  if max_size <? size_t size then throw LengthError else mret ().

Section sequences.
Context {T : Type} (read_T : M t T).

Definition emplace_back (result : list T) (v : T) : list T := result ++ [v].

Definition read_vector (max_size : Z) (result : list T) : M t (list T) :=
  size ← read_uint64_t;
  let result := [] in (* result.clear() *)
  reserve max_size size ;;
  read_loop read_T emplace_back (Z.to_nat size) result.

Definition read_list (result : list T) : M t (list T) :=
  size ← read_uint64_t;
  let result := [] in
  read_loop read_T emplace_back (Z.to_nat size) result.

Definition read_string (max_size : Z) (result : list T) : M t (list T) :=
  size ← read_uint64_t;
  let result := [] in
  reserve max_size size ;;
  read_loop read_T emplace_back (Z.to_nat size) result.
End sequences.

(** [template <typename T> void read(T& object)] with the
    specialisations for [bool] and the strings resolved. *)
Definition read_T (T : type) (object : object_t) : M t object_t :=
  match T with
  | trivially_copyable C => read_trivially_copyable C object
  | bool_ => v ← read_uint8_t; mret (Boolean (negb (v =? 0)))
  | basic_string C max_size =>
      s ← read_string (v ← read_new_trivially_copyable C; mret (as_bytes v))
            max_size [];
      mret (String_ s)
  end.

(** [template <typename T> T read()] *)
Definition read_new (T : type) : M t object_t :=
  object ← construct_object T;
  read_T T object.

Definition read_bool : M t bool := v ← read_new bool_; mret (as_bool v).

Section derived.
Context {T : Type} (read_T : M t T).

Definition read_atomic (val : T) : M t T := read_T.

Definition read_optional (val : option T) : M t (option T) :=
  read_bool ≫= λ present : bool,
    if present then v ← read_T; mret (Some v) else mret None.
End derived.

Section derived_factory.
Context {T : Type} (read_T : T → M t T).

(** [read_optional(std::optional<T>& val, const F& factory)]:
    [val.emplace(factory()); this->read<T>( *val)], the fill-in read over
    the object the closure made. *)
Definition read_optional_factory (val : option T) (factory : unit → T)
  : M t (option T) :=
  read_bool ≫= λ present : bool,
    if present
    then let object := factory () in v ← read_T object; mret (Some v)
    else mret None.
End derived_factory.

Section map.
Context {K V : Type} (less : K → K → bool).
Context (read_K : M t K) (read_V : M t V).

(** [map.emplace(key, value)] on a [std::map<K, V, Compare>], held as its
    entries in the order of their keys; [less] is [Compare], a strict weak
    ordering as the standard asks of it. The entry
    goes before the first key it is less than; when it meets a key that
    is neither less nor greater, an equivalent key, it is dropped. *)
Fixpoint emplace (map : list (K * V)) (entry : K * V) : list (K * V) :=
  match map with
  | [] => [entry]
  | e :: rest =>
      if less entry.1 e.1 then entry :: e :: rest
      else if less e.1 entry.1 then e :: emplace rest entry
      else e :: rest
  end.

(** [template <typename Map> void read_map(Map& map)] at a
    [std::map<K, V, Compare>]. *)
Definition read_map (map : list (K * V)) : M t (list (K * V)) :=
  let map := [] in (* map.clear() *)
  size ← read_uint64_t;
  read_loop (key ← read_K; value ← read_V; mret (key, value)) emplace
    (Z.to_nat size) map.
End map.

End buffer_deserializer.

(** ** The typed entry points, by the shape of the value

    [write_value] and [read_value] pick, for each supported shape, the
    writer and the reader that mirror each other: the typed [write]/[read]
    for a plain object, the derived writer and reader for an optional, a
    vector, a list and a map over element types. *)

Import buffer_deserializer (type, trivially_copyable, bool_, basic_string).

Inductive shape : Type :=
  | Plain (T : type)
  | Optional (T : type)
  | Vector (T : type) (max_size : Z)
  | List_ (T : type)
  | Map (K V : type) (less : object_t → object_t → bool).

Definition denote (S : shape) : Type :=
  match S with
  | Plain _ => object_t
  | Optional _ => option object_t
  | Vector _ _ | List_ _ => list object_t
  | Map _ _ _ => list (object_t * object_t)
  end.

Definition write_value (S : shape) : denote S → M buffer_serializer.t unit :=
  match S with
  | Plain _ => buffer_serializer.write_T
  | Optional _ => buffer_serializer.write_optional buffer_serializer.write_T
  | Vector _ _ => buffer_serializer.write_vector buffer_serializer.write_T
  | List_ _ => buffer_serializer.write_list buffer_serializer.write_T
  | Map _ _ _ =>
      buffer_serializer.write_map buffer_serializer.write_T buffer_serializer.write_T
  end.

Definition read_value (S : shape) : denote S → M buffer_deserializer.t (denote S) :=
  match S with
  | Plain T => buffer_deserializer.read_T T
  | Optional T => buffer_deserializer.read_optional (buffer_deserializer.read_new T)
  | Vector T max_size =>
      buffer_deserializer.read_vector (buffer_deserializer.read_new T) max_size
  | List_ T => buffer_deserializer.read_list (buffer_deserializer.read_new T)
  | Map K V less =>
      buffer_deserializer.read_map less
        (buffer_deserializer.read_new K) (buffer_deserializer.read_new V)
  end.

(** The keys as a [std::map] iterates them: each one is less than every
    later one under the comparator, and no later one is less than it. *)
Fixpoint strictly_increasing {K} (less : K → K → bool) (keys : list K) : bool :=
  match keys with
  | [] => true
  | k :: rest =>
      forallb (λ k', less k k' && negb (less k' k)) rest
      && strictly_increasing less rest
  end.

(** Two keys are equivalent under a comparator when neither is less than
    the other: the equality of keys in a [std::map]. *)
Definition equivalent {K} (less : K → K → bool) (a b : K) : bool :=
  negb (less a b) && negb (less b a).

(** An object is a value of the type: its representation has [sizeof]
    bytes, and so has every character of a string, whose length is within
    the [max_size()] of its type. *)
Definition object_has_type (T : type) (o : object_t) : bool :=
  match T, o with
  | trivially_copyable C, Trivial repr =>
      bool_decide (length repr = buffer_deserializer.sizeof C)
  | bool_, Boolean _ => true
  | basic_string C max_size, String_ chars =>
      forallb (λ c, bool_decide (length c = buffer_deserializer.sizeof C)) chars
      && (Z.of_nat (length chars) <=? max_size)
  | _, _ => false
  end.

Definition has_type (S : shape) : denote S → bool :=
  match S with
  | Plain T => object_has_type T
  | Optional T => from_option (object_has_type T) true
  | Vector T max_size => λ l,
      forallb (object_has_type T) l && (Z.of_nat (length l) <=? max_size)
  | List_ T => forallb (object_has_type T)
  | Map K V less => λ m,
      forallb (λ e, object_has_type K e.1 && object_has_type V e.2) m
      && strictly_increasing less m.*1
  end.

(** [read<T>()] can make its object and fill it whole: [T] is default
    constructible or has a factory in [factories], and has no constructor
    that reads from the decoder itself. *)
Definition constructible (factories : gmap string (unit → object_t)) (T : type) : bool :=
  match buffer_deserializer.has_deserializer_constructor T with
  | Some _ => false
  | None =>
      match buffer_deserializer.is_default_constructible T with
      | Some _ => true
      | None => bool_decide (is_Some (factories !! buffer_deserializer.type_index T))
      end
  end.

Definition readable (factories : gmap string (unit → object_t)) (T : type) : bool :=
  match T with
  | basic_string C _ => constructible factories (trivially_copyable C)
  | _ => true
  end.

Definition element (factories : gmap string (unit → object_t)) (T : type) : bool :=
  constructible factories T && readable factories T.

Definition supported (factories : gmap string (unit → object_t)) (S : shape) : bool :=
  match S with
  | Plain T => readable factories T
  | Optional T | Vector T _ | List_ T => element factories T
  | Map K V _ => element factories K && element factories V
  end.

(** The wire unit: the marker byte, then the payload. *)
Definition frame (data : list byte) : list byte :=
  uint8_t (Z.of_nat (length data)) :: data.

Definition frames (payloads : list (list byte)) : list byte :=
  concat (map frame payloads).

(** A writer only appends: whatever it does, the buffer it leaves, on
    return or on a throw, starts with the buffer it found. *)
Definition appends {A} (w : M buffer_serializer.t A) : Prop :=
  ∀ s, buffer_serializer.buffer_ s `prefix_of` buffer_serializer.buffer_ (w s).2.

(** Every operation of the encoder that writes. *)
Inductive write_operation : Type :=
  | Write (buffer : list byte)
  | Write_serializer (object : buffer_serializer.t)
  | Write_T (object : object_t)
  | Write_atomic (val : object_t)
  | Write_optional (val : option object_t)
  | Write_span (vec : list object_t)
  | Write_vector (vec : list object_t)
  | Write_list (vec : list object_t)
  | Write_string (str : list (list byte))
  | Write_map (map : list (object_t * object_t)).

Definition perform (op : write_operation) : M buffer_serializer.t unit :=
  match op with
  | Write buffer => buffer_serializer.write buffer
  | Write_serializer object => buffer_serializer.write_serializer object
  | Write_T object => buffer_serializer.write_T object
  | Write_atomic val => buffer_serializer.write_atomic buffer_serializer.write_T val
  | Write_optional val => buffer_serializer.write_optional buffer_serializer.write_T val
  | Write_span vec => buffer_serializer.write_span buffer_serializer.write_T vec
  | Write_vector vec => buffer_serializer.write_vector buffer_serializer.write_T vec
  | Write_list vec => buffer_serializer.write_list buffer_serializer.write_T vec
  | Write_string str => buffer_serializer.write_string str
  | Write_map map =>
      buffer_serializer.write_map buffer_serializer.write_T buffer_serializer.write_T map
  end.

(** ** Vocabulary of the statements *)

(** [r], started at the first of [bytes] anywhere in a source that fits
    [size_t] and with the factories [F], returns [v] and stops right after
    [bytes]. *)
Definition decodes (F : gmap string (unit → object_t)) {A}
    (r : M buffer_deserializer.t A) (bytes : list byte) (v : A) : Prop :=
  ∀ pre post,
    Z.of_nat (length (pre ++ bytes ++ post)) < 2 ^ 64 →
    r (buffer_deserializer.mk (Z.of_nat (length pre)) (pre ++ bytes ++ post) F)
    = (inr v,
       buffer_deserializer.mk (Z.of_nat (length (pre ++ bytes)))
         (pre ++ bytes ++ post) F).

(** When [w] returns it has appended at least [n] bytes, which [r] decodes
    to [v]. *)
Definition encodes (F : gmap string (unit → object_t)) {A} (n : nat)
    (w : M buffer_serializer.t unit) (r : M buffer_deserializer.t A) (v : A) : Prop :=
  ∀ s s', w s = (inr (), s') →
    ∃ bytes,
      s' = buffer_serializer.mk (buffer_serializer.buffer_ s ++ bytes)
             (buffer_serializer.break_offset_ s) ∧
      (n ≤ length bytes)%nat ∧
      decodes F r bytes v.

(** With no break offset set, [w] returns and appends [bytes]. *)
Definition emits (w : M buffer_serializer.t unit) (bytes : list byte) : Prop :=
  ∀ s, buffer_serializer.break_offset_ s = None →
    w s = (inr (), buffer_serializer.mk (buffer_serializer.buffer_ s ++ bytes) None).

(** ** Records written field by field

    What a [serialize]/[deserialize] pair of a user type does: the fields
    are written one after the other, and read in the same order into the
    members they fill. *)

Definition field : Type := {S : shape & denote S}.

Definition write_fields (fields : list field) : M buffer_serializer.t unit :=
  for_each (λ f : field, write_value (projT1 f) (projT2 f)) fields.

Fixpoint read_fields (members : list field) : M buffer_deserializer.t (list field) :=
  match members with
  | [] => mret []
  | member :: members' =>
      v ← read_value (projT1 member) (projT2 member);
      rest ← read_fields members';
      mret ((existT (projT1 member) v : field) :: rest)
  end.

(** ** Invariants of the two objects *)

(** A reader leaves the source and the registry as they are, and the
    cursor where it was or further on, never past the end. *)
Definition keeps_source {A} (r : M buffer_deserializer.t A) : Prop :=
  ∀ d,
    0 ≤ buffer_deserializer.offset_ d ≤ buffer_deserializer.size d →
    buffer_deserializer.size d < 2 ^ 63 →
    buffer_deserializer.buffer_ (r d).2 = buffer_deserializer.buffer_ d ∧
    buffer_deserializer.factories_ (r d).2 = buffer_deserializer.factories_ d ∧
    buffer_deserializer.offset_ d ≤ buffer_deserializer.offset_ (r d).2
      ≤ buffer_deserializer.size d.

(** A type read by the header's own code alone: no constructor from the
    decoder, and a size far from wrapping [size_t]. *)
Definition plain_class (C : buffer_deserializer.class_) : bool :=
  match buffer_deserializer.deserializer_constructor C with
  | Some _ => false
  | None => true
  end && (Z.of_nat (buffer_deserializer.sizeof C) <? 2 ^ 63).

Definition plain_type (T : type) : bool :=
  match T with
  | trivially_copyable C | basic_string C _ => plain_class C
  | bool_ => true
  end.

Definition plain_shape (S : shape) : bool :=
  match S with
  | Plain T | Optional T | Vector T _ | List_ T => plain_type T
  | Map K V _ => plain_type K && plain_type V
  end.

(** With the break offset [B] set and not yet passed, a writer never
    leaves a buffer longer than [B] (of those that fit [size_t]). *)
Definition capped (B : Z) {A} (w : M buffer_serializer.t A) : Prop :=
  ∀ s,
    buffer_serializer.break_offset_ s = Some B →
    Z.of_nat (length (buffer_serializer.buffer_ s)) ≤ B →
    Z.of_nat (length (buffer_serializer.buffer_ (w s).2)) < 2 ^ 64 →
    Z.of_nat (length (buffer_serializer.buffer_ (w s).2)) ≤ B ∧
    buffer_serializer.break_offset_ (w s).2 = Some B.

(** ** Comparators

    [std::less] at the key types of the samples: an unsigned integer key
    by the value of its bytes, a string key character by character. *)

Definition unsigned_less (a b : object_t) : bool :=
  of_bytes (as_bytes a) <? of_bytes (as_bytes b).

Fixpoint lexicographic_less (a b : list (list byte)) : bool :=
  match a, b with
  | _, [] => false
  | [], _ :: _ => true
  | x :: a', y :: b' =>
      if of_bytes x <? of_bytes y then true
      else if of_bytes y <? of_bytes x then false
      else lexicographic_less a' b'
  end.

Definition string_less (a b : object_t) : bool :=
  match a, b with
  | String_ x, String_ y => lexicographic_less x y
  | _, _ => false
  end.

(** ** Sample inputs *)

(** A [max_size()] for the containers of the samples. *)
Definition sample_max_size : Z := 2 ^ 62.

(** A decoder whose marker is 5 where a read of 4 bytes expects 4, and
    with 3 bytes after it. *)
Definition short_and_mismatched : buffer_deserializer.t :=
  buffer_deserializer.init [x05; x01; x02; x03].

(** The [std::map<std::string, int32_t>] of "abc" and "abd" to 7 and 42,
    as it iterates. *)
Definition sample_map : list (object_t * object_t) :=
  [(String_ [[x61]; [x62]; [x63]], Trivial (to_bytes 4 7));
   (String_ [[x61]; [x62]; [x64]], Trivial (to_bytes 4 42))].

Definition sample_shape : shape :=
  Map (basic_string buffer_deserializer.char_ sample_max_size)
      (trivially_copyable buffer_deserializer.int32_t_)
      string_less.

(** A trivially copyable class with no default constructor and no
    constructor from a decoder. *)
Definition handle_ : buffer_deserializer.class_ :=
  {| buffer_deserializer.type_name := "handle";
     buffer_deserializer.sizeof := 8;
     buffer_deserializer.deserializer_constructor := None;
     buffer_deserializer.default_constructor := None |}.

(** A flag, a string and an optional number, and the members they are
    read into. *)
Definition sample_fields : list field :=
  [existT (Plain bool_) (Boolean true);
   existT (Plain (basic_string buffer_deserializer.char_ sample_max_size))
     (String_ [[x61]; [x62]]);
   existT (Optional (trivially_copyable buffer_deserializer.int32_t_))
     (Some (Trivial (to_bytes 4 7)))].

Definition sample_members : list field :=
  [existT (Plain bool_) (Boolean false);
   existT (Plain (basic_string buffer_deserializer.char_ sample_max_size))
     (String_ []);
   existT (Optional (trivially_copyable buffer_deserializer.int32_t_)) None].

(** * Properties *)

(** ** Bytes and integers *)

Lemma Z_of_byte_range b : 0 ≤ Z_of_byte b < 256.
Proof.
  unfold Z_of_byte. pose proof (Byte.to_N_bounded b) as Hb. lia.
Qed.

Lemma Z_of_byte_uint8_t z : Z_of_byte (uint8_t z) = z mod 256.
Proof.
  unfold uint8_t, Z_of_byte.
  assert (0 ≤ z mod 256 < 256) as Hr by (apply Z.mod_pos_bound; lia).
  destruct (Byte.of_N (Z.to_N (z mod 256))) as [b|] eqn:E.
  - apply Byte.to_of_N in E. rewrite E. lia.
  - apply Byte.of_N_None_iff in E. lia.
Qed.

Lemma uint8_t_Z_of_byte b : uint8_t (Z_of_byte b) = b.
Proof.
  unfold uint8_t. rewrite Z.mod_small by apply Z_of_byte_range.
  unfold Z_of_byte. rewrite N2Z.id, Byte.of_to_N. reflexivity.
Qed.

Lemma length_to_bytes n z : length (to_bytes n z) = n.
Proof. revert z. induction n as [|n IH]; intros z; simpl; [done|]. by rewrite IH. Qed.

Lemma of_bytes_to_bytes n z : of_bytes (to_bytes n z) = z mod 256 ^ Z.of_nat n.
Proof.
  revert z. induction n as [|n IH]; intros z.
  - simpl. by rewrite Z.mod_1_r.
  - cbn [to_bytes of_bytes]. rewrite IH, Z_of_byte_uint8_t.
    rewrite Nat2Z.inj_succ, Z.pow_succ_r by lia.
    rewrite Z.rem_mul_r by lia. reflexivity.
Qed.

Lemma size_t_small z : 0 ≤ z < 2 ^ 64 → size_t z = z.
Proof. intros. unfold size_t. by apply Z.mod_small. Qed.

(** ** The monad *)

Section monad.
Context {S A B : Type} (m : M S A) (f : A → M S B).

Lemma bind_inr s x s' : m s = (inr x, s') → (m ≫= f) s = f x s'.
Proof. intros E. unfold mbind, M_bind. by rewrite E. Qed.

Lemma bind_inl s e s' : m s = (inl e, s') → (m ≫= f) s = (inl e, s').
Proof. intros E. unfold mbind, M_bind. by rewrite E. Qed.

Lemma bind_inv_inr s y s'' :
  (m ≫= f) s = (inr y, s'') → ∃ x s', m s = (inr x, s') ∧ f x s' = (inr y, s'').
Proof.
  unfold mbind, M_bind. destruct (m s) as [[e|x] s'] eqn:E; [done|]. eauto.
Qed.
End monad.

(** ** The primitive write *)

Section primitive_write.
Import buffer_serializer.

Lemma write_cases buffer s :
  write buffer s = (inl BreakOffsetError, s) ∨
  write buffer s = (inr (), mk (buffer_ s ++ frame buffer) (break_offset_ s)).
Proof.
  unfold write, throw.
  destruct (match break_offset_ s with Some _ => _ | None => _ end); auto.
Qed.

Lemma write_inr buffer s s' :
  write buffer s = (inr (), s') →
  s' = mk (buffer_ s ++ frame buffer) (break_offset_ s).
Proof. destruct (write_cases buffer s) as [E|E]; rewrite E; congruence. Qed.

Lemma write_no_break_offset buffer s :
  break_offset_ s = None →
  write buffer s = (inr (), mk (buffer_ s ++ frame buffer) None).
Proof. intros E. unfold write. rewrite E. reflexivity. Qed.

(** Past the break offset the check is off. *)
Lemma write_past_break_offset B buf buffer :
  B < Z.of_nat (length buf) →
  write buffer (mk buf (Some B)) = (inr (), mk (buf ++ frame buffer) (Some B)).
Proof.
  intros HB. unfold write. cbn [break_offset_ buffer_].
  replace (Z.of_nat (length buf) <=? B) with false by (symmetry; apply Z.leb_gt; lia).
  reflexivity.
Qed.

(** At or before the break offset the check compares the size the write
    would reach. *)
Lemma write_before_break_offset B buf buffer :
  Z.of_nat (length buf) ≤ B →
  Z.of_nat (length (buf ++ frame buffer)) < 2 ^ 64 →
  write buffer (mk buf (Some B)) =
    if B <? Z.of_nat (length (buf ++ frame buffer))
    then (inl BreakOffsetError, mk buf (Some B))
    else (inr (), mk (buf ++ frame buffer) (Some B)).
Proof.
  intros HB Hfit. unfold write, throw. cbn [break_offset_ buffer_].
  rewrite length_app in *. unfold frame in *. cbn [length] in *.
  replace (Z.of_nat (length buf) <=? B) with true by (symmetry; apply Z.leb_le; lia).
  rewrite (size_t_small (_ + Z.of_nat (length buffer))) by lia.
  rewrite size_t_small by lia.
  replace (Z.of_nat (length buf) + Z.of_nat (length buffer) + 1)
    with (Z.of_nat (length buf + S (length buffer))) by lia.
  cbn [andb]. by destruct (B <? _).
Qed.

Lemma for_each_write_past_break_offset B payloads buf :
  B < Z.of_nat (length buf) →
  for_each write payloads (mk buf (Some B)) =
    (inr (), mk (buf ++ frames payloads) (Some B)).
Proof.
  revert buf. induction payloads as [|p ps IH]; intros buf HB.
  - cbn. by rewrite app_nil_r.
  - cbn [for_each]. erewrite bind_inr by by apply write_past_break_offset.
    rewrite IH by (rewrite length_app; lia).
    unfold frames. cbn [map concat]. by rewrite <- app_assoc.
Qed.

Lemma for_each_write_before_break_offset B payloads buf :
  Z.of_nat (length (buf ++ frames payloads)) ≤ B →
  Z.of_nat (length (buf ++ frames payloads)) < 2 ^ 64 →
  for_each write payloads (mk buf (Some B)) =
    (inr (), mk (buf ++ frames payloads) (Some B)).
Proof.
  revert buf. induction payloads as [|p ps IH]; intros buf HB Hfit.
  - cbn. by rewrite app_nil_r.
  - unfold frames in HB, Hfit. cbn [map concat] in HB, Hfit.
    rewrite (app_assoc buf) in HB, Hfit.
    cbn [for_each]. erewrite bind_inr; last first.
    { rewrite write_before_break_offset.
      - replace (B <? _) with false; [done|].
        symmetry. apply Z.ltb_ge. rewrite length_app in HB. lia.
      - rewrite !length_app in HB. lia.
      - rewrite length_app in Hfit. lia. }
    rewrite IH by done.
    unfold frames. cbn [map concat]. by rewrite <- app_assoc.
Qed.
End primitive_write.

(** ** Append-only *)

Section append_only.
Import buffer_serializer.

Lemma appends_ret {A} (x : A) : appends (mret x).
Proof. intros s. done. Qed.

Lemma appends_bind {A B} (m : M t A) (f : A → M t B) :
  appends m → (∀ x, appends (f x)) → appends (m ≫= f).
Proof.
  intros Hm Hf s. specialize (Hm s). unfold mbind, M_bind.
  destruct (m s) as [[e|x] s']; cbn [snd] in *; [done|].
  etrans; [exact Hm|apply Hf].
Qed.

Lemma appends_write buffer : appends (write buffer).
Proof.
  intros s. destruct (write_cases buffer s) as [E|E]; rewrite E; cbn.
  - done.
  - by apply prefix_app_r.
Qed.

Lemma appends_for_each {A} (body : A → M t unit) range :
  (∀ v, appends (body v)) → appends (for_each body range).
Proof.
  intros Hb. induction range as [|v vs IH]; cbn [for_each].
  - apply appends_ret.
  - apply appends_bind; [apply Hb|done].
Qed.

Lemma appends_write_span {A} (write_A : A → M t unit) vec :
  (∀ v, appends (write_A v)) → appends (write_span write_A vec).
Proof.
  intros Hb. apply appends_bind; [apply appends_write|].
  intros _. by apply appends_for_each.
Qed.

Lemma appends_write_T object : appends (write_T object).
Proof.
  destruct object; cbn [write_T].
  - apply appends_write.
  - apply appends_write.
  - apply appends_write_span, appends_write.
Qed.
End append_only.

Lemma for_each_app_inr {S A} (body : A → M S unit) l1 l2 s s1 :
  for_each body l1 s = (inr (), s1) →
  for_each body (l1 ++ l2) s = for_each body l2 s1.
Proof.
  revert s. induction l1 as [|v l1 IH]; intros s E; cbn [for_each app] in *.
  - unfold mret, M_ret in E. congruence.
  - apply bind_inv_inr in E as ([] & s' & E1 & E2).
    erewrite bind_inr by exact E1. by apply IH.
Qed.

(** C9. Append-only: every write operation of the encoder (the primitive
    write, the embedding of another encoder, the typed write and each
    derived writer), whether it returns or throws, leaves a buffer that
    starts with the buffer it found; no byte already written changes. *)
Theorem append_only (op : write_operation) (s : buffer_serializer.t) :
  buffer_serializer.buffer_ s `prefix_of` buffer_serializer.buffer_ (perform op s).2 ∧
  ∀ (i : nat) (b : byte),
    buffer_serializer.buffer_ s !! i = Some b →
    buffer_serializer.buffer_ (perform op s).2 !! i = Some b.
Proof.
  assert (appends (perform op)) as Happ.
  { destruct op; cbn [perform].
    - apply appends_write.
    - apply appends_write.
    - apply appends_write_T.
    - apply appends_write_T.
    - apply appends_bind; [apply appends_write|].
      intros _. destruct val; [apply appends_write_T|apply appends_ret].
    - apply appends_write_span, appends_write_T.
    - apply appends_write_span, appends_write_T.
    - apply appends_bind; [apply appends_write|].
      intros _. apply appends_for_each, appends_write_T.
    - apply appends_write_span, appends_write.
    - apply appends_bind; [apply appends_write|].
      intros _. apply appends_for_each. intros entry.
      apply appends_bind; [apply appends_write_T|]. intros _. apply appends_write_T. }
  split; [apply Happ|].
  intros i b Hi. destruct (Happ s) as [k ->]. by apply lookup_app_l_Some.
Qed.

(** C4. With the break offset [B] set on an encoder and a run of primitive
    writes [before] that all complete at or before [B]: these writes
    succeed; a next write that would end past [B] throws
    [BreakOffsetError] and leaves the buffer exactly as it was before the
    attempt, and so does the whole run up to it; a next write that ends at
    or before [B] (exactly at [B] included) succeeds. The sizes are those
    of buffers that fit [size_t]. *)
Theorem break_offset_first_crossing
    (B : Z) (s : buffer_serializer.t) (before : list (list byte))
    (buffer : list byte) (after : list (list byte)) :
  let s1 :=
    buffer_serializer.mk (buffer_serializer.buffer_ s ++ frames before) (Some B) in
  Z.of_nat (length (buffer_serializer.buffer_ s ++ frames before)) ≤ B →
  Z.of_nat (length (buffer_serializer.buffer_ s ++ frames before ++ frame buffer)) < 2 ^ 64 →
  for_each buffer_serializer.write before (buffer_serializer.set_break_offset B s)
    = (inr (), s1) ∧
  (B < Z.of_nat (length (buffer_serializer.buffer_ s1 ++ frame buffer)) →
     buffer_serializer.write buffer s1 = (inl BreakOffsetError, s1) ∧
     for_each buffer_serializer.write (before ++ buffer :: after)
       (buffer_serializer.set_break_offset B s) = (inl BreakOffsetError, s1)) ∧
  (Z.of_nat (length (buffer_serializer.buffer_ s1 ++ frame buffer)) ≤ B →
     buffer_serializer.write buffer s1 =
       (inr (), buffer_serializer.mk (buffer_serializer.buffer_ s1 ++ frame buffer) (Some B))).
Proof.
  intros s1 HB Hfit. unfold buffer_serializer.set_break_offset.
  assert (for_each buffer_serializer.write before
            (buffer_serializer.mk (buffer_serializer.buffer_ s) (Some B)) = (inr (), s1))
    as Hbefore.
  { apply for_each_write_before_break_offset; [done|].
    rewrite app_assoc, length_app in Hfit. lia. }
  assert (buffer_serializer.write buffer s1 =
            if B <? Z.of_nat (length (buffer_serializer.buffer_ s1 ++ frame buffer))
            then (inl BreakOffsetError, s1)
            else (inr (), buffer_serializer.mk
                            (buffer_serializer.buffer_ s1 ++ frame buffer) (Some B)))
    as Hnext.
  { apply write_before_break_offset; [done|].
    cbn [buffer_serializer.buffer_ s1]. by rewrite <- app_assoc. }
  split; [done|]. split.
  - intros Hpast. apply Z.ltb_lt in Hpast. rewrite Hpast in Hnext. split; [done|].
    rewrite (for_each_app_inr _ _ _ _ _ Hbefore). cbn [for_each].
    by apply bind_inl.
  - intros Hwithin. apply Z.ltb_ge in Hwithin. by rewrite Hwithin in Hnext.
Qed.

Lemma break_offset_first_crossing_witness :
  for_each buffer_serializer.write [[x2a]; [x01; x02]]
    (buffer_serializer.set_break_offset 4 buffer_serializer.init)
  = (inl BreakOffsetError, buffer_serializer.mk [x01; x2a] (Some 4)).
Proof.
  destruct (break_offset_first_crossing 4 buffer_serializer.init [[x2a]] [x01; x02] [])
    as (_ & Hpast & _).
  - vm_compute. discriminate.
  - reflexivity.
  - apply Hpast. reflexivity.
Defined.

(** C10. Once the buffer is longer than the break offset (the offset was
    set after that much had been written), the check is off: every
    primitive write that follows succeeds and appends its frame. *)
Theorem writes_past_break_offset
    (B : Z) (s : buffer_serializer.t) (payloads : list (list byte)) :
  B < Z.of_nat (length (buffer_serializer.buffer_ s)) →
  for_each buffer_serializer.write payloads (buffer_serializer.set_break_offset B s)
  = (inr (), buffer_serializer.mk (buffer_serializer.buffer_ s ++ frames payloads) (Some B)).
Proof. intros HB. by apply for_each_write_past_break_offset. Qed.

Lemma writes_past_break_offset_witness :
  for_each buffer_serializer.write [[x03]; [x04; x05]]
    (buffer_serializer.set_break_offset 1
       (buffer_serializer.mk [x01; x2a] None))
  = (inr (), buffer_serializer.mk [x01; x2a; x01; x03; x02; x04; x05] (Some 1)).
Proof.
  apply (writes_past_break_offset 1 (buffer_serializer.mk [x01; x2a] None)
           [[x03]; [x04; x05]]).
  reflexivity.
Defined.

(** ** The primitive read *)

Section primitive_read.
Import buffer_deserializer.

(** [read_data] when no sum wraps: the bounds check comes first, the
    marker second. *)
Lemma read_data_unfold length d :
  0 ≤ offset_ d → 0 ≤ length → offset_ d + length + 1 < 2 ^ 64 →
  read_data length d =
    if size d <? offset_ d + length + 1 then (inl BoundsError, d)
    else if decide (buffer_ d !! Z.to_nat (offset_ d) ≠ Some (uint8_t length))
    then (inl FramingCorruptionError, d)
    else (inr (take (Z.to_nat length) (drop (Z.to_nat (offset_ d + 1)) (buffer_ d))),
          mk (offset_ d + 1 + length) (buffer_ d) (factories_ d)).
Proof.
  intros Ho Hl Hfit. unfold read_data, throw.
  rewrite (size_t_small (length + 1)) by lia.
  rewrite (size_t_small (offset_ d + (length + 1))) by lia.
  rewrite (size_t_small (offset_ d + 1)) by lia.
  rewrite (size_t_small (offset_ d + 1 + length)) by lia.
  replace (offset_ d + (length + 1)) with (offset_ d + length + 1) by lia.
  reflexivity.
Qed.

(** Reading the frame of [data] that follows [pre]. *)
Lemma read_data_frame pre data post F :
  Z.of_nat (length (pre ++ frame data ++ post)) < 2 ^ 64 →
  read_data (Z.of_nat (length data))
    (mk (Z.of_nat (length pre)) (pre ++ frame data ++ post) F)
  = (inr data,
     mk (Z.of_nat (length (pre ++ frame data))) (pre ++ frame data ++ post) F).
Proof.
  intros Hfit. rewrite !length_app in Hfit. unfold frame in Hfit. cbn [length] in Hfit.
  rewrite read_data_unfold; cbn [offset_ buffer_ factories_]; [|lia..].
  unfold size. cbn [buffer_].
  replace (_ <? _) with false; last first.
  { symmetry. apply Z.ltb_ge. rewrite !length_app. unfold frame. cbn [length]. lia. }
  rewrite Nat2Z.id. rewrite lookup_app_r by lia. rewrite Nat.sub_diag.
  cbn [frame app lookup]. unfold frame. cbn [app lookup list_lookup].
  rewrite decide_False by (intros Hne; by apply Hne).
  f_equal.
  - replace (Z.to_nat (Z.of_nat (length pre) + 1)) with (length pre + 1)%nat by lia.
    rewrite <- drop_drop. rewrite drop_app_length. cbn [drop].
    rewrite Nat2Z.id, drop_0. by rewrite take_app_length.
  - f_equal. rewrite length_app. cbn [length]. lia.
Qed.

Lemma get_remaining_data_out_of_bounds d :
  0 ≤ offset_ d ≤ size d → size d + 1 < 2 ^ 64 →
  get_remaining_data d = (inl BoundsError, d).
Proof.
  intros Ho Hfit. unfold get_remaining_data, get_remaining_size.
  rewrite (size_t_small (size d - offset_ d)) by lia.
  rewrite read_data_unfold by lia.
  replace (_ <? _) with true; [done|]. symmetry. apply Z.ltb_lt. lia.
Qed.
End primitive_read.

(** C2. [get_remaining_data] asks [read_data] for all the
    [get_remaining_size()] bytes that are left, and [read_data] needs one
    byte more than it is asked for (the marker): on every decoder whose
    cursor is within its source the call throws the out-of-bounds error and
    returns no view. *)
Theorem get_remaining_data_throws (d : buffer_deserializer.t) :
  0 ≤ buffer_deserializer.offset_ d ≤ buffer_deserializer.size d →
  buffer_deserializer.size d + 1 < 2 ^ 64 →
  buffer_deserializer.get_remaining_size d
    = buffer_deserializer.size d - buffer_deserializer.offset_ d ∧
  buffer_deserializer.get_remaining_data d = (inl BoundsError, d).
Proof.
  intros Ho Hfit. split; [|by apply get_remaining_data_out_of_bounds].
  unfold buffer_deserializer.get_remaining_size. apply size_t_small. lia.
Qed.

Lemma get_remaining_data_throws_witness :
  buffer_deserializer.get_remaining_data (buffer_deserializer.init [x02; xaa; xbb])
  = (inl BoundsError, buffer_deserializer.init [x02; xaa; xbb]).
Proof.
  apply (get_remaining_data_throws (buffer_deserializer.init [x02; xaa; xbb])).
  - vm_compute. split; discriminate.
  - reflexivity.
Defined.

(** C3, as stated, fails: on a buffer whose marker mismatches and which is
    too short for the payload, [read_data] throws the out-of-bounds error,
    not the framing one. *)
Lemma read_data_marker_first_counterexample :
  buffer_deserializer.buffer_ short_and_mismatched !! 0%nat ≠ Some (uint8_t 4) ∧
  buffer_deserializer.get_remaining_size short_and_mismatched - 1 < 4 ∧
  (buffer_deserializer.read_data 4 short_and_mismatched).1 = inl BoundsError ∧
  (buffer_deserializer.read_data 4 short_and_mismatched).1 ≠ inl FramingCorruptionError.
Proof. vm_compute. repeat split; discriminate. Qed.

(** C3, amended. For a length whose sum with the cursor and the marker
    byte is below [2 ^ 64], so that the [size_t] sum of the bounds check
    does not wrap around: [read_data(length)] first checks that the marker
    and [length] further bytes remain and throws [BoundsError] otherwise,
    whatever the marker is; only then it compares the marker at the cursor
    with [length mod 256] and throws [FramingCorruptionError] when they
    differ; otherwise it returns the [length] bytes after the marker and
    moves the cursor past them. *)
Theorem read_data_bounds_then_marker (d : buffer_deserializer.t) (length : Z) :
  0 ≤ buffer_deserializer.offset_ d → 0 ≤ length →
  buffer_deserializer.offset_ d + length + 1 < 2 ^ 64 →
  let marker :=
    buffer_deserializer.buffer_ d !! Z.to_nat (buffer_deserializer.offset_ d) in
  (buffer_deserializer.size d < buffer_deserializer.offset_ d + 1 + length →
     buffer_deserializer.read_data length d = (inl BoundsError, d)) ∧
  (buffer_deserializer.offset_ d + 1 + length ≤ buffer_deserializer.size d →
     Z_of_byte <$> marker ≠ Some (length mod 256) →
     buffer_deserializer.read_data length d = (inl FramingCorruptionError, d)) ∧
  (buffer_deserializer.offset_ d + 1 + length ≤ buffer_deserializer.size d →
     Z_of_byte <$> marker = Some (length mod 256) →
     buffer_deserializer.read_data length d =
       (inr (take (Z.to_nat length)
               (drop (Z.to_nat (buffer_deserializer.offset_ d + 1))
                  (buffer_deserializer.buffer_ d))),
        buffer_deserializer.mk (buffer_deserializer.offset_ d + 1 + length)
          (buffer_deserializer.buffer_ d) (buffer_deserializer.factories_ d))).
Proof.
  intros Ho Hl Hfit marker. rewrite read_data_unfold by done.
  split; [|split].
  - intros Hshort. replace (_ <? _) with true; [done|].
    symmetry. apply Z.ltb_lt. lia.
  - intros Hin Hm. replace (_ <? _) with false by (symmetry; apply Z.ltb_ge; lia).
    rewrite decide_True; [done|].
    intros E. apply Hm. subst marker. rewrite E. cbn. by rewrite Z_of_byte_uint8_t.
  - intros Hin Hm. replace (_ <? _) with false by (symmetry; apply Z.ltb_ge; lia).
    rewrite decide_False; [done|].
    intros Hne. apply Hne. subst marker.
    destruct (buffer_deserializer.buffer_ d !! _) as [b|]; [|done].
    cbn in Hm. f_equal. rewrite <- (uint8_t_Z_of_byte b).
    injection Hm as ->. unfold uint8_t. by rewrite Z.mod_mod.
Qed.

Lemma read_data_bounds_then_marker_witness :
  buffer_deserializer.read_data 2 (buffer_deserializer.init [x02; xaa; xbb])
  = (inr [xaa; xbb], buffer_deserializer.mk 3 [x02; xaa; xbb] ∅).
Proof.
  destruct (read_data_bounds_then_marker (buffer_deserializer.init [x02; xaa; xbb]) 2)
    as (_ & _ & Hok).
  - vm_compute. discriminate.
  - vm_compute. discriminate.
  - reflexivity.
  - apply Hok.
    + vm_compute. discriminate.
    + reflexivity.
Defined.

(** C5. Framing detection on the buffer a primitive write leaves: with the
    marker of the frame replaced by a byte that is not the payload length
    modulo 256, [read_data] of that length at the frame throws
    [FramingCorruptionError]; on the buffer cut short anywhere, so that the
    frame is not whole, it throws [BoundsError]; on the buffer as written
    it returns the payload. *)
Theorem framing_detection
    (s s' : buffer_serializer.t) (buffer : list byte)
    (F : gmap string (unit → object_t)) :
  buffer_serializer.write buffer s = (inr (), s') →
  Z.of_nat (length (buffer_serializer.buffer_ s')) < 2 ^ 64 →
  let offset := length (buffer_serializer.buffer_ s) in
  let decoder := λ source, buffer_deserializer.mk (Z.of_nat offset) source F in
  (∀ marker : byte,
     Z_of_byte marker ≠ Z.of_nat (length buffer) mod 256 →
     buffer_deserializer.read_data (Z.of_nat (length buffer))
       (decoder (<[offset := marker]> (buffer_serializer.buffer_ s')))
     = (inl FramingCorruptionError,
        decoder (<[offset := marker]> (buffer_serializer.buffer_ s')))) ∧
  (∀ k : nat,
     (k < length (buffer_serializer.buffer_ s'))%nat →
     buffer_deserializer.read_data (Z.of_nat (length buffer))
       (decoder (take k (buffer_serializer.buffer_ s')))
     = (inl BoundsError, decoder (take k (buffer_serializer.buffer_ s')))) ∧
  buffer_deserializer.read_data (Z.of_nat (length buffer))
    (decoder (buffer_serializer.buffer_ s'))
  = (inr buffer,
     buffer_deserializer.mk (Z.of_nat (length (buffer_serializer.buffer_ s')))
       (buffer_serializer.buffer_ s') F).
Proof.
  intros Hw Hfit offset decoder. apply write_inr in Hw. subst s' decoder offset.
  cbn [buffer_serializer.buffer_] in *.
  assert (Z.of_nat (length (buffer_serializer.buffer_ s)) + Z.of_nat (length buffer) + 1
          = Z.of_nat (length (buffer_serializer.buffer_ s ++ frame buffer))) as Hlen.
  { rewrite length_app. unfold frame. cbn [length]. lia. }
  split; [|split].
  - intros marker Hm.
    rewrite read_data_unfold; cbn [buffer_deserializer.offset_]; [|lia..].
    unfold buffer_deserializer.size. cbn [buffer_deserializer.buffer_].
    rewrite length_insert, Hlen, Z.ltb_irrefl, Nat2Z.id.
    rewrite list_lookup_insert_eq by (rewrite length_app; unfold frame; cbn; lia).
    rewrite decide_True; [done|].
    intros [= ->]. by rewrite Z_of_byte_uint8_t in Hm.
  - intros k Hk.
    rewrite read_data_unfold; cbn [buffer_deserializer.offset_]; [|lia..].
    unfold buffer_deserializer.size. cbn [buffer_deserializer.buffer_].
    rewrite length_take, Hlen.
    replace (_ <? _) with true; [done|]. symmetry. apply Z.ltb_lt. lia.
  - pose proof (read_data_frame (buffer_serializer.buffer_ s) buffer [] F) as Hr.
    rewrite !app_nil_r in Hr. by apply Hr.
Qed.

Lemma framing_detection_witness :
  buffer_deserializer.read_data 4
    (buffer_deserializer.init (take 3 [x04; x2a; x00; x00; x00]))
  = (inl BoundsError, buffer_deserializer.init (take 3 [x04; x2a; x00; x00; x00])).
Proof.
  destruct (framing_detection buffer_serializer.init
              (buffer_serializer.mk [x04; x2a; x00; x00; x00] None)
              [x2a; x00; x00; x00] ∅) as (_ & Hcut & _).
  - reflexivity.
  - reflexivity.
  - apply (Hcut 3%nat). vm_compute. lia.
Defined.

(** ** Writers and the readers that mirror them *)

Section codec.
Import buffer_deserializer.
Context (F : gmap string (unit → object_t)).

Lemma decodes_ret {A} (v : A) : decodes F (mret v) [] v.
Proof. intros pre post _. cbn [app]. by rewrite app_nil_r. Qed.

Lemma decodes_bind {A B} (r : M t A) (k : A → M t B) b1 b2 v w :
  decodes F r b1 v → decodes F (k v) b2 w → decodes F (r ≫= k) (b1 ++ b2) w.
Proof.
  intros H1 H2 pre post Hfit. rewrite <- (app_assoc b1) in Hfit |- *.
  erewrite bind_inr by (by apply H1).
  specialize (H2 (pre ++ b1) post). rewrite <- !app_assoc in H2.
  rewrite H2 by done. by rewrite !app_assoc.
Qed.

Lemma decodes_fmap {A B} (r : M t A) (f : A → B) bytes v :
  decodes F r bytes v → decodes F (x ← r; mret (f x)) bytes (f v).
Proof.
  intros H. rewrite <- (app_nil_r bytes).
  eapply decodes_bind; [exact H|apply decodes_ret].
Qed.

Lemma decodes_read_data data :
  decodes F (read_data (Z.of_nat (length data))) (frame data) data.
Proof. intros pre post Hfit. by apply read_data_frame. Qed.

Lemma decodes_construct_object T :
  constructible F T = true → ∃ object, decodes F (construct_object T) [] object.
Proof.
  unfold constructible, construct_object.
  destruct (has_deserializer_constructor T); [done|].
  destruct (is_default_constructible T) as [value|].
  - intros _. exists value. apply decodes_ret.
  - intros HF. apply bool_decide_eq_true in HF as [factory HF].
    exists (factory ()). intros pre post _. cbn [factories_ app].
    rewrite HF, app_nil_r. done.
Qed.

Lemma decodes_read_trivially_copyable C object repr :
  length repr = sizeof C →
  decodes F (read_trivially_copyable C object) (frame repr) (Trivial repr).
Proof.
  intros Hlen. unfold read_trivially_copyable, read_raw. rewrite <- Hlen.
  apply decodes_fmap. rewrite <- (app_nil_r (frame repr)).
  eapply decodes_bind; [apply decodes_read_data|apply decodes_ret].
Qed.

Lemma decodes_read_new_trivially_copyable C repr :
  constructible F (trivially_copyable C) = true →
  length repr = sizeof C →
  decodes F (read_new_trivially_copyable C) (frame repr) (Trivial repr).
Proof.
  intros HC Hlen. destruct (decodes_construct_object _ HC) as [object Ho].
  change (frame repr) with ([] ++ frame repr).
  eapply decodes_bind; [exact Ho|by apply decodes_read_trivially_copyable].
Qed.

Lemma decodes_read_uint8_t b : decodes F read_uint8_t (frame [b]) (Z_of_byte b).
Proof.
  replace (Z_of_byte b) with (of_bytes (as_bytes (Trivial [b]))) by (cbn; lia).
  apply (decodes_fmap _ (λ v, of_bytes (as_bytes v))).
  by apply decodes_read_new_trivially_copyable.
Qed.

Lemma decodes_read_uint64_t z :
  decodes F read_uint64_t (frame (to_bytes 8 z)) (z mod 2 ^ 64).
Proof.
  replace (z mod 2 ^ 64) with (of_bytes (as_bytes (Trivial (to_bytes 8 z))))
    by (cbn [as_bytes]; by rewrite of_bytes_to_bytes).
  apply (decodes_fmap _ (λ v, of_bytes (as_bytes v))).
  by apply decodes_read_new_trivially_copyable.
Qed.

Lemma encodes_weaken {A} n m w (r : M t A) v :
  (m ≤ n)%nat → encodes F n w r v → encodes F m w r v.
Proof.
  intros Hmn H s s' Hw. destruct (H s s' Hw) as (bytes & ? & ? & ?).
  exists bytes. repeat split; [done|lia|done].
Qed.

Lemma encodes_ret {A} (v : A) : encodes F 0 (mret ()) (mret v) v.
Proof.
  intros s s' [= <-]. exists []. rewrite app_nil_r.
  split; [by destruct s|]. split; [done|apply decodes_ret].
Qed.

Lemma encodes_write {A} data (r : M t A) v :
  decodes F r (frame data) v → encodes F 1 (buffer_serializer.write data) r v.
Proof.
  intros Hr s s' Hw. apply write_inr in Hw. exists (frame data).
  split; [done|]. split; [cbn; lia|done].
Qed.

Lemma encodes_bind {A B} n1 n2 w1 w2 (r : M t A) (k : A → M t B) v1 v2 :
  encodes F n1 w1 r v1 → encodes F n2 w2 (k v1) v2 →
  encodes F (n1 + n2) (w1 ;; w2) (r ≫= k) v2.
Proof.
  intros H1 H2 s s' Hw. apply bind_inv_inr in Hw as ([] & s1 & Hw1 & Hw2).
  destruct (H1 _ _ Hw1) as (b1 & -> & Hn1 & Hd1).
  destruct (H2 _ _ Hw2) as (b2 & -> & Hn2 & Hd2).
  cbn [buffer_serializer.buffer_ buffer_serializer.break_offset_].
  exists (b1 ++ b2). rewrite app_assoc. split; [done|].
  split; [rewrite length_app; lia|by eapply decodes_bind].
Qed.

Lemma encodes_fmap {A B} n w (r : M t A) (f : A → B) v :
  encodes F n w r v → encodes F n w (x ← r; mret (f x)) (f v).
Proof.
  intros H s s' Hw. destruct (H s s' Hw) as (bytes & ? & ? & ?).
  exists bytes. repeat split; [done..|by apply decodes_fmap].
Qed.

(** The writing loop against the reading loop. *)
Lemma encodes_for_each {A R} (w : A → M buffer_serializer.t unit) (r : M t A)
    (push : R → A → R) (l : list A) :
  Forall (λ v, encodes F 1 (w v) r v) l →
  ∀ acc, encodes F (length l) (for_each w l)
           (read_loop r push (length l) acc) (foldl push acc l).
Proof.
  induction 1 as [|v l Hv _ IH]; intros acc; cbn [for_each length read_loop foldl].
  - apply encodes_ret.
  - change (S (length l)) with (1 + length l)%nat at 1.
    apply (encodes_bind 1 (length l) (w v) (for_each w l) r
             (λ v, read_loop r push (length l) (push acc v)) v); [done|apply IH].
Qed.

(** A count, then the elements. *)
Lemma encodes_counted {A R} (w : A → M buffer_serializer.t unit) (r : M t A)
    (push : R → A → R) (l : list A) (acc : R) :
  Forall (λ v, encodes F 1 (w v) r v) l →
  encodes F 1
    (buffer_serializer.write_uint64_t (size_t (Z.of_nat (length l))) ;; for_each w l)
    (size ← read_uint64_t; read_loop r push (Z.to_nat size) acc)
    (foldl push acc l).
Proof.
  intros Hl s s' Hw. apply bind_inv_inr in Hw as ([] & s1 & Hw1 & Hw2).
  apply write_inr in Hw1. subst s1.
  destruct (encodes_for_each w r push l Hl acc _ _ Hw2) as (b2 & -> & Hn2 & Hd2).
  cbn [buffer_serializer.buffer_ buffer_serializer.break_offset_].
  exists (frame (to_bytes 8 (size_t (Z.of_nat (length l)))) ++ b2).
  rewrite app_assoc. split; [done|]. split; [cbn; lia|].
  intros pre post Hfit.
  assert (size_t (Z.of_nat (length l)) = Z.of_nat (length l)) as Hsize.
  { apply size_t_small. rewrite !length_app in Hfit. lia. }
  revert pre post Hfit. rewrite Hsize.
  eapply decodes_bind; [apply decodes_read_uint64_t|].
  change (Z.of_nat (length l) mod 2 ^ 64) with (size_t (Z.of_nat (length l))).
  by rewrite Hsize, Nat2Z.id.
Qed.

(** A count within [max_size] reserves, and the read goes on. *)
Lemma decodes_reserve {A} max_size (n : nat) (r : M t A) bytes v :
  Z.of_nat n ≤ max_size → decodes F r bytes v →
  decodes F (reserve max_size (Z.of_nat n) ;; r) bytes v.
Proof.
  intros Hn Hr pre post Hfit. unfold reserve.
  replace (max_size <? _) with false; [by apply Hr|].
  symmetry. apply Z.ltb_ge. unfold size_t.
  pose proof (Z.mod_le (Z.of_nat n) (2 ^ 64)). lia.
Qed.

(** A count, the reservation, then the elements. *)
Lemma encodes_counted_reserve {A R} (w : A → M buffer_serializer.t unit) (r : M t A)
    (push : R → A → R) (l : list A) (acc : R) max_size :
  Z.of_nat (length l) ≤ max_size →
  Forall (λ v, encodes F 1 (w v) r v) l →
  encodes F 1
    (buffer_serializer.write_uint64_t (size_t (Z.of_nat (length l))) ;; for_each w l)
    (size ← read_uint64_t;
     reserve max_size size ;; read_loop r push (Z.to_nat size) acc)
    (foldl push acc l).
Proof.
  intros Hmax Hl s s' Hw. apply bind_inv_inr in Hw as ([] & s1 & Hw1 & Hw2).
  apply write_inr in Hw1. subst s1.
  destruct (encodes_for_each w r push l Hl acc _ _ Hw2) as (b2 & -> & Hn2 & Hd2).
  cbn [buffer_serializer.buffer_ buffer_serializer.break_offset_].
  exists (frame (to_bytes 8 (size_t (Z.of_nat (length l)))) ++ b2).
  rewrite app_assoc. split; [done|]. split; [cbn; lia|].
  intros pre post Hfit.
  assert (size_t (Z.of_nat (length l)) = Z.of_nat (length l)) as Hsize.
  { apply size_t_small. rewrite !length_app in Hfit. lia. }
  revert pre post Hfit. rewrite Hsize.
  eapply decodes_bind; [apply decodes_read_uint64_t|].
  change (Z.of_nat (length l) mod 2 ^ 64) with (size_t (Z.of_nat (length l))).
  rewrite Hsize, Nat2Z.id. by apply decodes_reserve.
Qed.
End codec.

Lemma foldl_emplace_back {A} (acc l : list A) :
  foldl buffer_deserializer.emplace_back acc l = acc ++ l.
Proof.
  revert acc. induction l as [|x l IH]; intros acc; cbn [foldl].
  - by rewrite app_nil_r.
  - rewrite IH. unfold buffer_deserializer.emplace_back. by rewrite <- app_assoc.
Qed.

Lemma forallb_Forall {A} (f : A → bool) (l : list A) :
  forallb f l = true → Forall (λ x, f x = true) l.
Proof.
  induction l as [|x l IH]; cbn [forallb]; [constructor|].
  intros [Hx Hl]%andb_true_iff. constructor; auto.
Qed.

(** An entry whose key is above every key of the map goes to its end. *)
Lemma emplace_above {K V} (less : K → K → bool) (map : list (K * V)) entry :
  Forall (λ e, less e.1 entry.1 = true ∧ less entry.1 e.1 = false) map →
  buffer_deserializer.emplace less map entry = map ++ [entry].
Proof.
  induction 1 as [|e rest [Hlt Hgt] _ IH]; cbn [buffer_deserializer.emplace app].
  - done.
  - by rewrite Hgt, Hlt, IH.
Qed.

Lemma foldl_emplace_increasing {K V} (less : K → K → bool) (l acc : list (K * V)) :
  strictly_increasing less l.*1 = true →
  Forall (λ a, Forall (λ e, less a.1 e.1 = true ∧ less e.1 a.1 = false) l) acc →
  foldl (buffer_deserializer.emplace less) acc l = acc ++ l.
Proof.
  revert acc. induction l as [|x l IH]; intros acc Hinc Hacc; cbn [foldl].
  - by rewrite app_nil_r.
  - cbn [fmap list_fmap strictly_increasing] in Hinc.
    apply andb_true_iff in Hinc as [Hx Hinc].
    rewrite emplace_above; last first.
    { eapply Forall_impl; [exact Hacc|]. intros a Ha. by inversion Ha. }
    rewrite IH, <- app_assoc; [done..|].
    apply Forall_app. split.
    + eapply Forall_impl; [exact Hacc|]. intros a Ha. by inversion Ha.
    + apply Forall_singleton. apply forallb_Forall in Hx.
      apply Forall_fmap in Hx. eapply Forall_impl; [exact Hx|].
      intros e [He1 He2%negb_true_iff]%andb_true_iff. done.
Qed.

(** Emplacing the entries of a map, in the order the map iterates them,
    into an empty map gives the map back. *)
Lemma foldl_emplace_entries {K V} (less : K → K → bool) (m : list (K * V)) :
  strictly_increasing less m.*1 = true →
  foldl (buffer_deserializer.emplace less) [] m = m.
Proof. intros Hinc. by rewrite foldl_emplace_increasing. Qed.

Section typed.
Import buffer_deserializer.
Context (F : gmap string (unit → object_t)).

Lemma encodes_eq {A} n w (r : M t A) v v' :
  encodes F n w r v → v = v' → encodes F n w r v'.
Proof. by intros ? <-. Qed.

Lemma encodes_write_T T v object :
  readable F T = true → object_has_type T v = true →
  encodes F 1 (buffer_serializer.write_T v) (read_T T object) v.
Proof.
  intros Hr Hty. destruct T as [C| |C max_size], v as [repr|b|chars];
    try discriminate Hty;
    cbn [object_has_type readable buffer_serializer.write_T read_T] in *.
  - apply bool_decide_eq_true in Hty.
    apply encodes_write. by apply decodes_read_trivially_copyable.
  - apply encodes_write.
    destruct b.
    + apply (decodes_fmap F _ (λ v, Boolean (negb (v =? 0))) _ (Z_of_byte x01)).
      apply decodes_read_uint8_t.
    + apply (decodes_fmap F _ (λ v, Boolean (negb (v =? 0))) _ (Z_of_byte x00)).
      apply decodes_read_uint8_t.
  - apply andb_true_iff in Hty as [Hty Hmax%Z.leb_le].
    apply (encodes_fmap F 1 _ _ String_).
    eapply encodes_eq; [|apply (foldl_emplace_back [] chars)].
    apply encodes_counted_reserve; [done|].
    apply forallb_Forall in Hty. eapply Forall_impl; [exact Hty|].
    intros c Hc. cbn beta in Hc. apply bool_decide_eq_true in Hc.
    apply encodes_write.
    apply (decodes_fmap F _ as_bytes _ (Trivial c)).
    by apply decodes_read_new_trivially_copyable.
Qed.

Lemma encodes_read_new T v :
  element F T = true → object_has_type T v = true →
  encodes F 1 (buffer_serializer.write_T v) (read_new T) v.
Proof.
  unfold element. intros [Hc Hr]%andb_true_iff Hty.
  destruct (decodes_construct_object F T Hc) as [object Ho].
  intros s s' Hw.
  destruct (encodes_write_T T v object Hr Hty s s' Hw) as (bytes & ? & ? & Hd).
  exists bytes. repeat split; [done..|].
  change bytes with ([] ++ bytes). by eapply decodes_bind.
Qed.

Lemma encodes_read_bool b :
  encodes F 1 (buffer_serializer.write_bool b) read_bool b.
Proof.
  apply (encodes_fmap F 1 _ _ as_bool (Boolean b)).
  by apply (encodes_read_new bool_ (Boolean b)).
Qed.

Lemma encodes_elements T l :
  element F T = true → forallb (object_has_type T) l = true →
  Forall (λ v, encodes F 1 (buffer_serializer.write_T v) (read_new T) v) l.
Proof.
  intros He Hty. apply forallb_Forall in Hty. eapply Forall_impl; [exact Hty|].
  intros v Hv. by apply encodes_read_new.
Qed.

Lemma encodes_write_value S (v target : denote S) :
  supported F S = true → has_type S v = true →
  encodes F 1 (write_value S v) (read_value S target) v.
Proof.
  destruct S as [T|T|T max_size|T|K V less];
    cbn [supported has_type write_value read_value denote] in *; intros Hs Hty.
  - by apply encodes_write_T.
  - unfold buffer_serializer.write_optional, read_optional.
    apply (encodes_weaken F (1 + 0)); [lia|].
    eapply encodes_bind; [apply encodes_read_bool|].
    destruct v as [o|]; cbn [from_option] in Hty.
    + rewrite bool_decide_eq_true_2 by done.
      apply (encodes_weaken F 1); [lia|].
      apply (encodes_fmap F 1 _ _ Some). by apply encodes_read_new.
    + rewrite bool_decide_eq_false_2 by (by intros []). apply encodes_ret.
  - apply andb_true_iff in Hty as [Hty Hmax%Z.leb_le].
    eapply encodes_eq; [|apply (foldl_emplace_back [] v)].
    apply encodes_counted_reserve; [done|]. by apply encodes_elements.
  - eapply encodes_eq; [|apply (foldl_emplace_back [] v)].
    apply encodes_counted. by apply encodes_elements.
  - apply andb_true_iff in Hs as [HK HV].
    apply andb_true_iff in Hty as [Hty Hinc].
    unfold buffer_serializer.write_map, read_map.
    eapply encodes_eq; [|by apply (foldl_emplace_entries less v)].
    apply encodes_counted.
    apply forallb_Forall in Hty. eapply Forall_impl; [exact Hty|].
    intros [k x] [Hk Hx]%andb_true_iff. cbn [fst snd] in *.
    apply (encodes_weaken F (1 + 1)); [lia|].
    eapply encodes_bind; [by apply encodes_read_new|].
    apply (encodes_fmap F 1 _ _ (λ value, (k, value))). by apply encodes_read_new.
Qed.
End typed.

(** ** Writing with no break offset *)

Section emits.
Import buffer_serializer.

Lemma emits_ret : emits (mret ()) [].
Proof. intros [buf bo] Hbo. cbn in *. subst bo. by rewrite app_nil_r. Qed.

Lemma emits_write buffer : emits (write buffer) (frame buffer).
Proof. intros s Hbo. by apply write_no_break_offset. Qed.

Lemma emits_bind w1 w2 b1 b2 : emits w1 b1 → emits w2 b2 → emits (w1 ;; w2) (b1 ++ b2).
Proof.
  intros H1 H2 s Hbo. erewrite bind_inr by (by apply H1).
  rewrite H2 by done. cbn [buffer_]. by rewrite app_assoc.
Qed.

Lemma emits_for_each {A} (body : A → M t unit) range :
  (∀ v, ∃ bytes, emits (body v) bytes) → ∃ bytes, emits (for_each body range) bytes.
Proof.
  intros Hb. induction range as [|v vs [b2 IH]]; cbn [for_each].
  - exists []. apply emits_ret.
  - destruct (Hb v) as [b1 H1]. exists (b1 ++ b2). by apply emits_bind.
Qed.

Lemma emits_write_span {A} (write_A : A → M t unit) vec :
  (∀ v, ∃ bytes, emits (write_A v) bytes) → ∃ bytes, emits (write_span write_A vec) bytes.
Proof.
  intros Hb. destruct (emits_for_each write_A vec Hb) as [b2 H2].
  eexists. apply emits_bind; [apply emits_write|exact H2].
Qed.

Lemma emits_write_T object : ∃ bytes, emits (write_T object) bytes.
Proof.
  destruct object; cbn [write_T].
  - eexists. apply emits_write.
  - eexists. apply emits_write.
  - apply emits_write_span. intros c. eexists. apply emits_write.
Qed.

Lemma emits_write_value S (v : denote S) : ∃ bytes, emits (write_value S v) bytes.
Proof.
  destruct S as [T|T|T|T|K V]; cbn [write_value denote] in *.
  - apply emits_write_T.
  - destruct v as [o|]; cbn.
    + destruct (emits_write_T o) as [b H]. eexists.
      apply emits_bind; [apply emits_write|exact H].
    + eexists. apply emits_bind; [apply emits_write|apply emits_ret].
  - apply emits_write_span, emits_write_T.
  - apply emits_write_span, emits_write_T.
  - unfold write_map.
    destruct (emits_for_each (λ entry : object_t * object_t,
                write_T entry.1 ;; write_T entry.2) v) as [b H].
    { intros [k x]. destruct (emits_write_T k) as [bk Hk].
      destruct (emits_write_T x) as [bx Hx]. eexists. by apply emits_bind. }
    eexists. apply emits_bind; [apply emits_write|exact H].
Qed.

Lemma emits_init w bytes : emits w bytes → w init = (inr (), mk bytes None).
Proof. intros H. by rewrite (H init). Qed.
End emits.

(** A value written anywhere in a buffer reads back from where it starts. *)
Lemma round_trip_from F S (v target : denote S) s s' :
  supported F S = true → has_type S v = true →
  write_value S v s = (inr (), s') →
  Z.of_nat (length (buffer_serializer.buffer_ s')) < 2 ^ 64 →
  read_value S target
    (buffer_deserializer.mk (Z.of_nat (length (buffer_serializer.buffer_ s)))
       (buffer_serializer.buffer_ s') F)
  = (inr v,
     buffer_deserializer.mk (Z.of_nat (length (buffer_serializer.buffer_ s')))
       (buffer_serializer.buffer_ s') F).
Proof.
  intros Hs Hty Hw Hfit.
  destruct (encodes_write_value F S v target Hs Hty s s' Hw) as (bytes & -> & _ & Hd).
  cbn [buffer_serializer.buffer_] in *.
  specialize (Hd (buffer_serializer.buffer_ s) []). rewrite !app_nil_r in Hd.
  by apply Hd.
Qed.

(** C1. Round trip: a value of a supported shape (a trivially copyable
    object, a [bool], a string, or an optional, vector, list or map of
    such elements), written by its writer into a fresh encoder, is
    returned by the mirrored reader from a decoder over the buffer, which
    ends at the end of the buffer. The value has the type read: every
    representation has the size of its type, a vector or a string is
    within the [max_size()] of its type, and a map holds its entries in
    the order of their keys under its comparator, the order in which
    [write_map] visits them. The decoder can construct the element types
    (default construction, or a factory among [F]); the buffer fits
    [size_t]. *)
Theorem round_trip
    (S : shape) (v target : denote S) (F : gmap string (unit → object_t)) :
  let written := write_value S v buffer_serializer.init in
  let source := buffer_serializer.get_buffer written.2 in
  has_type S v = true → supported F S = true →
  Z.of_nat (length source) < 2 ^ 64 →
  written.1 = inr () ∧
  read_value S target (buffer_deserializer.mk 0 source F)
  = (inr v, buffer_deserializer.mk (Z.of_nat (length source)) source F).
Proof.
  intros written source Hty Hs Hfit. subst written source.
  destruct (emits_write_value S v) as [bytes Hw]. apply emits_init in Hw.
  rewrite Hw in *. cbn [fst snd buffer_serializer.get_buffer buffer_serializer.buffer_] in *.
  split; [done|].
  by apply (round_trip_from F S v target buffer_serializer.init _ Hs Hty Hw).
Qed.

Lemma round_trip_witness :
  (write_value sample_shape sample_map buffer_serializer.init).1 = inr () ∧
  read_value sample_shape []
    (buffer_deserializer.of_serializer
       (write_value sample_shape sample_map buffer_serializer.init).2)
  = (inr sample_map,
     buffer_deserializer.mk 49
       (buffer_serializer.get_buffer
          (write_value sample_shape sample_map buffer_serializer.init).2) ∅).
Proof.
  apply (round_trip sample_shape sample_map [] ∅).
  - vm_compute. reflexivity.
  - reflexivity.
  - vm_compute. reflexivity.
Defined.

(** C6. An absent optional is written as the one frame of the flag
    [false], [[0x01][0x00]]; a present one as the frame of the flag
    [true], [[0x01][0x01]], followed by what the typed write of the value
    emits (for the 32-bit 7: [[0x04]] and the four bytes of 7); and
    [read_optional] over either buffer returns the optional written. *)
Theorem optional_round_trip
    (T : type) (v : object_t) (target : option object_t)
    (F : gmap string (unit → object_t)) :
  let absent :=
    buffer_serializer.write_optional buffer_serializer.write_T None
      buffer_serializer.init in
  let present :=
    buffer_serializer.write_optional buffer_serializer.write_T (Some v)
      buffer_serializer.init in
  object_has_type T v = true → element F T = true →
  Z.of_nat (length (buffer_serializer.buffer_ present.2)) < 2 ^ 64 →
  absent = (inr (), buffer_serializer.mk [x01; x00] None) ∧
  present.1 = inr () ∧
  buffer_serializer.buffer_ present.2
    = [x01; x01] ++
      buffer_serializer.buffer_ (buffer_serializer.write_T v buffer_serializer.init).2 ∧
  buffer_serializer.write_optional buffer_serializer.write_T
    (Some (Trivial (to_bytes 4 7))) buffer_serializer.init
    = (inr (), buffer_serializer.mk [x01; x01; x04; x07; x00; x00; x00] None) ∧
  buffer_deserializer.read_optional (buffer_deserializer.read_new T) target
    (buffer_deserializer.mk 0 (buffer_serializer.buffer_ absent.2) F)
    = (inr None, buffer_deserializer.mk 2 (buffer_serializer.buffer_ absent.2) F) ∧
  buffer_deserializer.read_optional (buffer_deserializer.read_new T) target
    (buffer_deserializer.mk 0 (buffer_serializer.buffer_ present.2) F)
    = (inr (Some v),
       buffer_deserializer.mk (Z.of_nat (length (buffer_serializer.buffer_ present.2)))
         (buffer_serializer.buffer_ present.2) F).
Proof.
  intros absent present Hty He Hfit.
  assert (absent = (inr (), buffer_serializer.mk [x01; x00] None)) as Ha by reflexivity.
  destruct (emits_write_T v) as [bv Hv].
  assert (present = (inr (), buffer_serializer.mk ([x01; x01] ++ bv) None)) as Hp.
  { subst present. unfold buffer_serializer.write_optional.
    rewrite bool_decide_eq_true_2 by done.
    apply emits_init. change [x01; x01] with (frame [x01]).
    apply emits_bind; [apply emits_write|exact Hv]. }
  apply emits_init in Hv.
  clearbody absent present. subst absent present. rewrite Hv.
  cbn [fst snd buffer_serializer.buffer_] in *.
  split; [done|]. split; [done|]. split; [done|]. split; [reflexivity|]. split.
  - apply (round_trip_from F (Optional T) None target buffer_serializer.init
             (buffer_serializer.mk [x01; x00] None)); done.
  - apply (round_trip_from F (Optional T) (Some v) target buffer_serializer.init
             (buffer_serializer.mk ([x01; x01] ++ bv) None)); try done.
    cbn [write_value]. unfold buffer_serializer.write_optional.
    rewrite bool_decide_eq_true_2 by done.
    erewrite bind_inr by reflexivity.
    change (buffer_serializer.write_T v
              (buffer_serializer.mk ([x01; x01] ++ []) None)
            = (inr (), buffer_serializer.mk ([x01; x01] ++ bv) None)).
    destruct (emits_write_T v) as [bv' Hv']. pose proof (emits_init _ _ Hv') as Hi.
    rewrite Hv in Hi. injection Hi as <-.
    rewrite (Hv' (buffer_serializer.mk ([x01; x01] ++ []) None)) by done.
    done.
Qed.

Lemma optional_round_trip_witness :
  buffer_deserializer.read_optional
    (buffer_deserializer.read_new (trivially_copyable buffer_deserializer.int32_t_))
    None
    (buffer_deserializer.mk 0 [x01; x01; x04; x07; x00; x00; x00] ∅)
  = (inr (Some (Trivial (to_bytes 4 7))),
     buffer_deserializer.mk 7 [x01; x01; x04; x07; x00; x00; x00] ∅).
Proof.
  destruct (optional_round_trip (trivially_copyable buffer_deserializer.int32_t_)
              (Trivial (to_bytes 4 7)) None ∅) as (_ & _ & _ & _ & _ & Hread).
  - reflexivity.
  - reflexivity.
  - reflexivity.
  - exact Hread.
Defined.

(** ** get_diff *)

(** What the loop of [get_diff] returns when its budget reaches the end of
    the first buffer. *)
Lemma get_diff_loop_spec (b1 b2 : list byte) (n i : nat) :
  (i + n = length b1)%nat →
  match buffer_serializer.get_diff_loop b1 b2 n i with
  | Some j =>
      (i ≤ j)%nat ∧ (j < length b1)%nat ∧ (j < length b2)%nat ∧
      b1 !! j ≠ b2 !! j ∧
      ∀ k, (i ≤ k < j)%nat → b1 !! k = b2 !! k
  | None =>
      ∀ k, (i ≤ k)%nat → (k < length b1)%nat → (k < length b2)%nat →
           b1 !! k = b2 !! k
  end.
Proof.
  revert i. induction n as [|n IH]; intros i Hn; cbn [buffer_serializer.get_diff_loop].
  - intros k ? ? ?. lia.
  - destruct (i <? length b1)%nat eqn:E1; cbn [andb].
    2:{ apply Nat.ltb_ge in E1. lia. }
    destruct (i <? length b2)%nat eqn:E2.
    2:{ apply Nat.ltb_ge in E2. intros k ? ? ?. lia. }
    apply Nat.ltb_lt in E1, E2.
    destruct (decide (b1 !! i ≠ b2 !! i)) as [Hne|Heq].
    + repeat split; [lia|done..|]. intros k ?. lia.
    + apply dec_stable in Heq. specialize (IH (S i) ltac:(lia)).
      destruct (buffer_serializer.get_diff_loop b1 b2 n (S i)) as [j|].
      * destruct IH as (? & ? & ? & ? & Hk). repeat split; [lia|done..|].
        intros k ?. destruct (decide (k = i)) as [->|]; [done|]. apply Hk. lia.
      * intros k ? ? ?. destruct (decide (k = i)) as [->|]; [done|]. apply IH; lia.
Qed.

(** C7. [get_diff] returns the first offset at which the two buffers
    differ; when they agree on their common length and the sizes differ,
    the length of the shorter one; and no offset exactly when the buffers
    are equal. For the strings "abc" and "abd" it returns 14, the offset
    of the payload byte of the last character. *)
Theorem get_diff_spec (this other : buffer_serializer.t) :
  let b1 := buffer_serializer.get_buffer this in
  let b2 := buffer_serializer.get_buffer other in
  (∀ i : nat,
     (i < length b1)%nat → (i < length b2)%nat → b1 !! i ≠ b2 !! i →
     (∀ k, (k < i)%nat → b1 !! k = b2 !! k) →
     buffer_serializer.get_diff this other = Some i) ∧
  ((∀ k, (k < length b1)%nat → (k < length b2)%nat → b1 !! k = b2 !! k) →
     length b1 ≠ length b2 →
     buffer_serializer.get_diff this other = Some (length b1 `min` length b2)%nat) ∧
  (buffer_serializer.get_diff this other = None ↔ b1 = b2) ∧
  buffer_serializer.get_diff
    (buffer_serializer.write_T (String_ [[x61]; [x62]; [x63]]) buffer_serializer.init).2
    (buffer_serializer.write_T (String_ [[x61]; [x62]; [x64]]) buffer_serializer.init).2
  = Some 14%nat.
Proof.
  intros b1 b2. unfold buffer_serializer.get_diff. fold b1 b2.
  pose proof (get_diff_loop_spec b1 b2 (length b1) 0 eq_refl) as Hloop.
  split; [|split; [|split]].
  - intros i H1 H2 Hne Hbefore.
    destruct (buffer_serializer.get_diff_loop b1 b2 (length b1) 0) as [j|].
    + destruct Hloop as (_ & ? & ? & Hj & Hk). f_equal.
      destruct (Nat.lt_trichotomy i j) as [Hlt|[->|Hgt]]; [|done|].
      * exfalso. apply Hne, Hk. lia.
      * exfalso. by apply Hj, Hbefore.
    + exfalso. apply Hne, Hloop; [lia|done..].
  - intros Hsame Hsize.
    destruct (buffer_serializer.get_diff_loop b1 b2 (length b1) 0) as [j|].
    + destruct Hloop as (_ & ? & ? & Hj & _). exfalso. by apply Hj, Hsame.
    + by rewrite decide_True.
  - destruct (buffer_serializer.get_diff_loop b1 b2 (length b1) 0) as [j|].
    + destruct Hloop as (_ & ? & ? & Hj & _). split; [done|].
      intros E. exfalso. apply Hj. by rewrite E.
    + destruct (decide (length b1 ≠ length b2)) as [Hsize|Hsize].
      * split; [done|]. intros E. by rewrite E in Hsize.
      * apply dec_stable in Hsize. split; [|done]. intros _.
        apply list_eq. intros k. destruct (decide (k < length b1)%nat).
        -- apply Hloop; lia.
        -- rewrite !lookup_ge_None_2 by lia. done.
  - reflexivity.
Qed.

(** ** construct_object *)

(** C8. [construct_object<T>] takes, in this order: the constructor of [T]
    from the decoder when [T] has one; else the default-constructed value
    when [T] is default constructible; else the factory registered under
    the type of [T] in this decoder, and it throws [ConstructionError]
    with the name of the type when there is none. The first two ignore
    the registry. *)
Theorem construct_object_order (T : type) (d : buffer_deserializer.t) :
  (∀ constructor,
     buffer_deserializer.has_deserializer_constructor T = Some constructor →
     buffer_deserializer.construct_object T d = constructor d) ∧
  (∀ value,
     buffer_deserializer.has_deserializer_constructor T = None →
     buffer_deserializer.is_default_constructible T = Some value →
     buffer_deserializer.construct_object T d = (inr value, d)) ∧
  (∀ factory,
     buffer_deserializer.has_deserializer_constructor T = None →
     buffer_deserializer.is_default_constructible T = None →
     buffer_deserializer.factories_ d !! buffer_deserializer.type_index T = Some factory →
     buffer_deserializer.construct_object T d = (inr (factory ()), d)) ∧
  (buffer_deserializer.has_deserializer_constructor T = None →
   buffer_deserializer.is_default_constructible T = None →
   buffer_deserializer.factories_ d !! buffer_deserializer.type_index T = None →
   buffer_deserializer.construct_object T d
   = (inl (ConstructionError (buffer_deserializer.type_index T)), d)) ∧
  (∀ factory,
     buffer_deserializer.has_deserializer_constructor T = None →
     buffer_deserializer.is_default_constructible T = None →
     buffer_deserializer.construct_object T
       (buffer_deserializer.register_factory T factory d)
     = (inr (factory ()), buffer_deserializer.register_factory T factory d)).
Proof.
  unfold buffer_deserializer.construct_object.
  split; [|split; [|split; [|split]]].
  - by intros constructor ->.
  - by intros value -> ->.
  - by intros factory -> -> ->.
  - by intros -> -> ->.
  - intros factory -> ->. cbn [buffer_deserializer.register_factory
      buffer_deserializer.factories_]. by rewrite lookup_insert_eq.
Qed.

Lemma construct_object_order_witness :
  buffer_deserializer.construct_object (trivially_copyable handle_)
    (buffer_deserializer.init [])
  = (inl (ConstructionError "handle"), buffer_deserializer.init []).
Proof.
  destruct (construct_object_order (trivially_copyable handle_)
              (buffer_deserializer.init [])) as (_ & _ & _ & Hnone & _).
  apply Hnone; reflexivity.
Defined.

(** * Further properties of the code *)

(** ** The marker is the length modulo 256, and nothing more *)

Lemma uint8_t_eq_iff z1 z2 : uint8_t z1 = uint8_t z2 ↔ z1 mod 256 = z2 mod 256.
Proof.
  split.
  - intros E. rewrite <- !Z_of_byte_uint8_t. by rewrite E.
  - intros E. unfold uint8_t. by rewrite E.
Qed.

(** X1. Reading [n] bytes at a frame that holds a payload of another
    length, with [n + 1] bytes left in the source: the read is refused
    with the framing error exactly when [n] and the payload length differ
    modulo 256; a length that agrees modulo 256 is accepted, and the view
    returned is the [n] bytes after the marker, whatever frames they
    belong to. *)
Theorem read_data_checks_length_modulo_256
    (pre data post : list byte) (F : gmap string (unit → object_t)) (n : Z) :
  let source := pre ++ frame data ++ post in
  let d := buffer_deserializer.mk (Z.of_nat (length pre)) source F in
  0 ≤ n →
  Z.of_nat (length pre) + 1 + n ≤ Z.of_nat (length source) →
  Z.of_nat (length source) < 2 ^ 64 →
  (n mod 256 ≠ Z.of_nat (length data) mod 256 →
     buffer_deserializer.read_data n d = (inl FramingCorruptionError, d)) ∧
  (n mod 256 = Z.of_nat (length data) mod 256 →
     buffer_deserializer.read_data n d
     = (inr (take (Z.to_nat n) (data ++ post)),
        buffer_deserializer.mk (Z.of_nat (length pre) + 1 + n) source F)).
Proof.
  intros source d Hn Hin Hfit. subst d source.
  rewrite read_data_unfold;
    cbn [buffer_deserializer.offset_ buffer_deserializer.buffer_
         buffer_deserializer.factories_]; [|lia..].
  unfold buffer_deserializer.size. cbn [buffer_deserializer.buffer_].
  replace (_ <? _) with false by (symmetry; apply Z.ltb_ge; lia).
  rewrite Nat2Z.id, lookup_app_r, Nat.sub_diag by lia.
  unfold frame. cbn [app lookup list_lookup].
  split; intros Hmod.
  - rewrite decide_True; [done|]. intros [= E]. by apply uint8_t_eq_iff in E.
  - rewrite decide_False; last first.
    { intros Hne. apply Hne. f_equal. by apply uint8_t_eq_iff. }
    do 3 f_equal.
    replace (Z.to_nat (Z.of_nat (length pre) + 1)) with (length pre + 1)%nat by lia.
    rewrite <- drop_drop, drop_app_length. done.
Qed.

Lemma read_data_checks_length_modulo_256_witness :
  buffer_deserializer.read_data 0
    (buffer_deserializer.init (frame (replicate 256 xaa) ++ frame [x07]))
  = (inr [],
     buffer_deserializer.mk 1 (frame (replicate 256 xaa) ++ frame [x07]) ∅).
Proof.
  destruct (read_data_checks_length_modulo_256 [] (replicate 256 xaa) (frame [x07]) ∅ 0)
    as [_ Hok].
  - done.
  - vm_compute. discriminate.
  - reflexivity.
  - apply Hok. reflexivity.
Defined.

(** X2. A length of [2^64 - 1] passes the bounds check on every source:
    [length + 1] wraps to 0. With the cursor on a byte of the source,
    [read_data] then compares the marker with 0xFF and either throws the
    framing error or returns, the cursor back where it was; it never
    throws the out-of-bounds error, though the source is shorter than the
    length asked for. *)
Theorem read_data_length_wraps (d : buffer_deserializer.t) :
  let marker :=
    buffer_deserializer.buffer_ d !! Z.to_nat (buffer_deserializer.offset_ d) in
  0 ≤ buffer_deserializer.offset_ d < buffer_deserializer.size d →
  buffer_deserializer.size d < 2 ^ 64 →
  (marker ≠ Some xff →
     buffer_deserializer.read_data (2 ^ 64 - 1) d = (inl FramingCorruptionError, d)) ∧
  (marker = Some xff →
     ∃ view, buffer_deserializer.read_data (2 ^ 64 - 1) d = (inr view, d)).
Proof.
  intros marker Ho Hfit. subst marker. unfold buffer_deserializer.read_data, throw.
  change (size_t (2 ^ 64 - 1 + 1)) with 0. rewrite Z.add_0_r.
  rewrite (size_t_small (buffer_deserializer.offset_ d)) by lia.
  replace (_ <? _) with false by (symmetry; apply Z.ltb_ge; lia).
  change (uint8_t (2 ^ 64 - 1)) with xff.
  split; intros Hm.
  - by rewrite decide_True.
  - rewrite decide_False by (by intros Hne).
    eexists. f_equal. destruct d as [o b f]. cbn in *. f_equal.
    rewrite (size_t_small (o + 1)) by lia. unfold size_t.
    replace (o + 1 + (2 ^ 64 - 1)) with (o + 1 * 2 ^ 64) by lia.
    rewrite Z.mod_add by lia. apply Z.mod_small. lia.
Qed.

Lemma read_data_length_wraps_witness :
  ∃ view,
    buffer_deserializer.read_data (2 ^ 64 - 1) (buffer_deserializer.init [xff; x01])
    = (inr view, buffer_deserializer.init [xff; x01]).
Proof.
  destruct (read_data_length_wraps (buffer_deserializer.init [xff; x01])) as [_ Hok].
  - vm_compute. split; [discriminate|reflexivity].
  - reflexivity.
  - apply Hok. reflexivity.
Defined.

(** X3. The typed read of a [bool] takes any non-zero byte for [true]: on
    a one-byte frame holding [b] it returns [b != 0], so the bytes 2 to
    255, which no write of a [bool] emits, all read as [true]. *)
Theorem read_bool_is_nonzero
    (b : byte) (object : object_t) (pre post : list byte)
    (F : gmap string (unit → object_t)) :
  let source := pre ++ frame [b] ++ post in
  Z.of_nat (length source) < 2 ^ 64 →
  buffer_deserializer.read_T bool_ object
    (buffer_deserializer.mk (Z.of_nat (length pre)) source F)
  = (inr (Boolean (bool_decide (b ≠ x00))),
     buffer_deserializer.mk (Z.of_nat (length pre) + 2) source F).
Proof.
  intros source Hfit. subst source. cbn [buffer_deserializer.read_T].
  pose proof (decodes_fmap F _ (λ v, Boolean (negb (v =? 0))) _ _
                (decodes_read_uint8_t F b) pre post Hfit) as Hr.
  cbn beta in Hr. rewrite Hr. f_equal.
  - do 2 f_equal. destruct (decide (b = x00)) as [->|Hb].
    + by rewrite bool_decide_eq_false_2 by (by intros H).
    + rewrite bool_decide_eq_true_2 by done.
      apply negb_true_iff, Z.eqb_neq. intros E. apply Hb.
      rewrite <- (uint8_t_Z_of_byte b), E. reflexivity.
  - f_equal. rewrite length_app. cbn [frame length]. lia.
Qed.

Lemma read_bool_is_nonzero_witness :
  buffer_deserializer.read_T bool_ (Boolean false)
    (buffer_deserializer.init [x01; x02])
  = (inr (Boolean true), buffer_deserializer.mk 2 [x01; x02] ∅).
Proof.
  apply (read_bool_is_nonzero x02 (Boolean false) [] [] ∅). reflexivity.
Defined.

(** ** Embedding, extraction and the diagnostics *)

(** X4. An encoder written into another one is one frame whose payload is
    its buffer: [read_data] of that many bytes at the frame returns the
    embedded buffer, and a decoder over the view reads back the value the
    embedded encoder held. *)
Theorem embedded_encoder_round_trip
    (F : gmap string (unit → object_t)) (S : shape) (v target : denote S)
    (s s' : buffer_serializer.t) :
  let object := (write_value S v buffer_serializer.init).2 in
  let view := buffer_serializer.get_buffer object in
  has_type S v = true → supported F S = true →
  buffer_serializer.write_serializer object s = (inr (), s') →
  Z.of_nat (length (buffer_serializer.buffer_ s')) < 2 ^ 64 →
  buffer_deserializer.read_data (Z.of_nat (length view))
    (buffer_deserializer.mk (Z.of_nat (length (buffer_serializer.buffer_ s)))
       (buffer_serializer.buffer_ s') F)
  = (inr view,
     buffer_deserializer.mk (Z.of_nat (length (buffer_serializer.buffer_ s')))
       (buffer_serializer.buffer_ s') F) ∧
  read_value S target (buffer_deserializer.mk 0 view F)
  = (inr v, buffer_deserializer.mk (Z.of_nat (length view)) view F).
Proof.
  intros object view Hty Hs Hw Hfit. subst view object.
  destruct (emits_write_value S v) as [bytes Hv]. apply emits_init in Hv.
  rewrite Hv in *. cbn [snd buffer_serializer.get_buffer buffer_serializer.buffer_] in *.
  unfold buffer_serializer.write_serializer in Hw.
  cbn [buffer_serializer.get_buffer buffer_serializer.buffer_] in Hw.
  apply write_inr in Hw. subst s'. cbn [buffer_serializer.buffer_] in *.
  split.
  - pose proof (read_data_frame (buffer_serializer.buffer_ s) bytes [] F) as Hr.
    rewrite !app_nil_r in Hr. by apply Hr.
  - apply (round_trip_from F S v target buffer_serializer.init _ Hs Hty Hv).
    cbn [buffer_serializer.buffer_]. rewrite length_app in Hfit.
    unfold frame in Hfit. cbn [length] in Hfit. lia.
Qed.

Lemma embedded_encoder_round_trip_witness :
  buffer_deserializer.read_data 2
    (buffer_deserializer.mk 2 [x01; xaa; x02; x01; x01] ∅)
  = (inr [x01; x01], buffer_deserializer.mk 5 [x01; xaa; x02; x01; x01] ∅) ∧
  buffer_deserializer.read_T bool_ (Boolean false)
    (buffer_deserializer.mk 0 [x01; x01] ∅)
  = (inr (Boolean true), buffer_deserializer.mk 2 [x01; x01] ∅).
Proof.
  apply (embedded_encoder_round_trip ∅ (Plain bool_) (Boolean true) (Boolean false)
           (buffer_serializer.mk [x01; xaa] None)
           (buffer_serializer.mk [x01; xaa; x02; x01; x01] None));
    reflexivity.
Defined.

(** X5. [move_buffer] hands out the buffer and leaves the encoder empty,
    with its break offset: a second extraction gives nothing, and the
    break-offset check, which was off if the buffer had grown past the
    offset, is on again for the next write. *)
Theorem move_buffer_restarts
    (s : buffer_serializer.t) (B : Z) (buffer : list byte) :
  let moved := buffer_serializer.move_buffer s in
  buffer_serializer.break_offset_ s = Some B → 0 ≤ B →
  Z.of_nat (length (frame buffer)) < 2 ^ 64 →
  moved.1 = buffer_serializer.buffer_ s ∧
  (buffer_serializer.move_buffer moved.2).1 = [] ∧
  (B < Z.of_nat (length (frame buffer)) →
     buffer_serializer.write buffer moved.2 = (inl BreakOffsetError, moved.2)) ∧
  (Z.of_nat (length (frame buffer)) ≤ B →
     buffer_serializer.write buffer moved.2
     = (inr (), buffer_serializer.mk (frame buffer) (Some B))).
Proof.
  intros moved Hbo HB Hfit. subst moved. unfold buffer_serializer.move_buffer.
  cbn [fst snd buffer_serializer.buffer_ buffer_serializer.break_offset_]. rewrite Hbo.
  split; [done|]. split; [done|].
  pose proof (write_before_break_offset B [] buffer) as Hw.
  cbn [app length] in Hw. specialize (Hw ltac:(lia) Hfit).
  split; intros Hcmp.
  - apply Z.ltb_lt in Hcmp. by rewrite Hcmp in Hw.
  - apply Z.ltb_ge in Hcmp. by rewrite Hcmp in Hw.
Qed.

Lemma move_buffer_restarts_witness :
  buffer_serializer.write [x01; x02]
    (buffer_serializer.move_buffer
       (buffer_serializer.mk [x03; x01; x02; x03] (Some 2))).2
  = (inl BreakOffsetError, buffer_serializer.mk [] (Some 2)).
Proof.
  destruct (move_buffer_restarts (buffer_serializer.mk [x03; x01; x02; x03] (Some 2))
              2 [x01; x02]) as (_ & _ & Hthrow & _).
  - reflexivity.
  - vm_compute. discriminate.
  - reflexivity.
  - apply Hthrow. reflexivity.
Defined.

(** What [get_diff] returns, by cases. *)
Lemma get_diff_Some_iff (this other : buffer_serializer.t) (i : nat) :
  let b1 := buffer_serializer.get_buffer this in
  let b2 := buffer_serializer.get_buffer other in
  buffer_serializer.get_diff this other = Some i ↔
    ((i < length b1)%nat ∧ (i < length b2)%nat ∧ b1 !! i ≠ b2 !! i ∧
     ∀ k, (k < i)%nat → b1 !! k = b2 !! k) ∨
    (i = (length b1 `min` length b2)%nat ∧ length b1 ≠ length b2 ∧
     ∀ k, (k < length b1)%nat → (k < length b2)%nat → b1 !! k = b2 !! k).
Proof.
  intros b1 b2. unfold buffer_serializer.get_diff. fold b1 b2.
  pose proof (get_diff_loop_spec b1 b2 (length b1) 0 eq_refl) as Hloop.
  destruct (buffer_serializer.get_diff_loop b1 b2 (length b1) 0) as [j|].
  - destruct Hloop as (_ & Hj1 & Hj2 & Hj & Hk). split.
    + intros [= <-]. left. repeat split; [done..|]. intros k ?. apply Hk. lia.
    + intros [(H1 & H2 & Hne & Hbefore)|(_ & _ & Hsame)].
      * f_equal. destruct (Nat.lt_trichotomy i j) as [Hlt|[->|Hgt]]; [|done|].
        -- exfalso. apply Hne, Hk. lia.
        -- exfalso. by apply Hj, Hbefore.
      * exfalso. by apply Hj, Hsame.
  - destruct (decide (length b1 ≠ length b2)) as [Hsize|Hsize]; split.
    + intros [= <-]. right. repeat split; [done|]. intros k ? ?. apply Hloop; lia.
    + intros [(H1 & H2 & Hne & _)|(-> & _ & _)]; [|done].
      exfalso. apply Hne, Hloop; [lia|done..].
    + done.
    + intros [(H1 & H2 & Hne & _)|(_ & Hne & _)]; [|done].
      exfalso. apply Hne, Hloop; [lia|done..].
Qed.

(** X6. [get_diff] is symmetric: each encoder reports against the other
    the offset the other reports against it. *)
Theorem get_diff_symmetric (this other : buffer_serializer.t) :
  buffer_serializer.get_diff this other = buffer_serializer.get_diff other this.
Proof.
  assert (∀ a b i, buffer_serializer.get_diff a b = Some i →
                   buffer_serializer.get_diff b a = Some i) as Hsym.
  { intros a b i H. apply get_diff_Some_iff in H. apply get_diff_Some_iff.
    destruct H as [(H1 & H2 & Hne & Hk)|(-> & Hsize & Hk)].
    - left. repeat split; [done..| |].
      + intros E. by apply Hne.
      + intros k Hlt. symmetry. by apply Hk.
    - right. split; [apply Nat.min_comm|]. split; [done|].
      intros k ? ?. symmetry. by apply Hk. }
  destruct (buffer_serializer.get_diff this other) as [i|] eqn:E1.
  - symmetry. by apply Hsym.
  - destruct (buffer_serializer.get_diff other this) as [j|] eqn:E2; [|done].
    apply Hsym in E2. congruence.
Qed.

(** A write operation that returns has appended at least one byte. *)
Lemma bind_write_grows buffer (f : unit → M buffer_serializer.t unit) s s' :
  (∀ x, appends (f x)) →
  (buffer_serializer.write buffer ≫= f) s = (inr (), s') →
  ∃ k, k ≠ [] ∧ buffer_serializer.buffer_ s' = buffer_serializer.buffer_ s ++ k.
Proof.
  intros Hf Hw. apply bind_inv_inr in Hw as ([] & s1 & Hw1 & Hw2).
  apply write_inr in Hw1. subst s1.
  destruct (Hf () (buffer_serializer.mk
                     (buffer_serializer.buffer_ s ++ frame buffer)
                     (buffer_serializer.break_offset_ s))) as [k Hk].
  rewrite Hw2 in Hk. cbn [snd buffer_serializer.buffer_] in Hk.
  exists (frame buffer ++ k). split; [done|]. by rewrite app_assoc.
Qed.

Lemma write_grows buffer s s' :
  buffer_serializer.write buffer s = (inr (), s') →
  ∃ k, k ≠ [] ∧ buffer_serializer.buffer_ s' = buffer_serializer.buffer_ s ++ k.
Proof. intros Hw. apply write_inr in Hw. subst s'. by exists (frame buffer). Qed.

Lemma write_T_grows object s s' :
  buffer_serializer.write_T object s = (inr (), s') →
  ∃ k, k ≠ [] ∧ buffer_serializer.buffer_ s' = buffer_serializer.buffer_ s ++ k.
Proof.
  destruct object; cbn [buffer_serializer.write_T].
  - apply write_grows.
  - apply write_grows.
  - apply bind_write_grows. intros _. apply appends_for_each, appends_write.
Qed.

Lemma perform_grows op s s' :
  perform op s = (inr (), s') →
  ∃ k, k ≠ [] ∧ buffer_serializer.buffer_ s' = buffer_serializer.buffer_ s ++ k.
Proof.
  destruct op; cbn [perform].
  - apply write_grows.
  - apply write_grows.
  - apply write_T_grows.
  - apply write_T_grows.
  - apply bind_write_grows. intros _.
    destruct val; [apply appends_write_T|apply appends_ret].
  - apply bind_write_grows. intros _. apply appends_for_each, appends_write_T.
  - apply bind_write_grows. intros _. apply appends_for_each, appends_write_T.
  - apply bind_write_grows. intros _. apply appends_for_each, appends_write_T.
  - apply bind_write_grows. intros _. apply appends_for_each, appends_write.
  - apply bind_write_grows. intros _. apply appends_for_each. intros entry.
    apply appends_bind; [apply appends_write_T|]. intros _. apply appends_write_T.
Qed.

(** X7. Against a copy taken before it, every write operation that
    returns shows in [get_diff] at the size the buffer had: the copy is a
    strict prefix. A primitive write that throws shows no difference. *)
Theorem get_diff_after_write (op : write_operation) (s : buffer_serializer.t) :
  (∀ s', perform op s = (inr (), s') →
     buffer_serializer.get_diff s s'
     = Some (length (buffer_serializer.buffer_ s))) ∧
  (∀ buffer e s',
     buffer_serializer.write buffer s = (inl e, s') →
     buffer_serializer.get_diff s s' = None).
Proof.
  split.
  - intros s' Hw. destruct (perform_grows op s s' Hw) as (k & Hk & Hs').
    apply get_diff_Some_iff. right.
    unfold buffer_serializer.get_buffer. rewrite Hs', length_app.
    assert (length k ≠ 0%nat) by (by destruct k).
    split; [lia|]. split; [lia|].
    intros i Hi _. by rewrite lookup_app_l.
  - intros buffer e s' Hw.
    destruct (write_cases buffer s) as [E|E]; rewrite E in Hw; [|done].
    injection Hw as _ <-.
    destruct (buffer_serializer.get_diff s s) as [i|] eqn:Hd; [|done].
    apply get_diff_Some_iff in Hd as [(_ & _ & Hne & _)|(_ & Hne & _)]; done.
Qed.

(** ** The factory registry *)


(** ** The break offset as a cap *)

Section cap.
Import buffer_serializer.
Context (B : Z).

Lemma capped_ret {A} (x : A) : capped B (mret x).
Proof. intros s Hbo Hle _. done. Qed.

Lemma capped_write buffer : capped B (write buffer).
Proof.
  intros s Hbo Hle. unfold write, throw. rewrite Hbo.
  replace (_ <=? B) with true by (symmetry; apply Z.leb_le; lia).
  cbn [andb]. destruct (B <? _) eqn:E; cbn [snd buffer_ break_offset_]; [done|].
  intros Hfit. split; [|done]. apply Z.ltb_ge in E.
  rewrite length_app in Hfit |- *. cbn [length app] in Hfit |- *.
  rewrite (size_t_small (_ + Z.of_nat (length buffer))) in E by lia.
  rewrite size_t_small in E by lia. lia.
Qed.

Lemma capped_bind {A C} (m : M t A) (f : A → M t C) :
  capped B m → (∀ x, capped B (f x)) → (∀ x, appends (f x)) → capped B (m ≫= f).
Proof.
  intros Hm Hf Happ s Hbo Hle. specialize (Hm s Hbo Hle).
  unfold mbind, M_bind. destruct (m s) as [[e|x] s1]; cbn [snd] in *; [done|].
  intros Hfit. pose proof (Happ x s1) as [k Hk].
  destruct Hm as [Hle1 Hbo1].
  { rewrite Hk, length_app in Hfit. lia. }
  by apply Hf.
Qed.

Lemma capped_for_each {A} (body : A → M t unit) range :
  (∀ v, capped B (body v)) → (∀ v, appends (body v)) →
  capped B (for_each body range).
Proof.
  intros Hc Ha. induction range as [|v vs IH]; cbn [for_each].
  - apply capped_ret.
  - apply capped_bind; [apply Hc|done|]. intros _. by apply appends_for_each.
Qed.

Lemma capped_counted {A} (body : A → M t unit) z range :
  (∀ v, capped B (body v)) → (∀ v, appends (body v)) →
  capped B (write_uint64_t z ;; for_each body range).
Proof.
  intros Hc Ha. apply capped_bind; [apply capped_write| |].
  - intros _. by apply capped_for_each.
  - intros _. by apply appends_for_each.
Qed.

Lemma capped_write_T object : capped B (write_T object).
Proof.
  destruct object; cbn [write_T].
  - apply capped_write.
  - apply capped_write.
  - apply capped_counted; [apply capped_write|apply appends_write].
Qed.

Lemma capped_perform op : capped B (perform op).
Proof.
  destruct op; cbn [perform].
  - apply capped_write.
  - apply capped_write.
  - apply capped_write_T.
  - apply capped_write_T.
  - apply capped_bind; [apply capped_write| |]; intros _; destruct val;
      auto using capped_write_T, capped_ret, appends_write_T, appends_ret.
  - apply capped_counted; [apply capped_write_T|apply appends_write_T].
  - apply capped_counted; [apply capped_write_T|apply appends_write_T].
  - apply capped_counted; [apply capped_write_T|apply appends_write_T].
  - apply capped_counted; [apply capped_write|apply appends_write].
  - apply capped_counted.
    + intros entry. apply capped_bind; [apply capped_write_T| |]; intros _;
        [apply capped_write_T|apply appends_write_T].
    + intros entry. apply appends_bind; [apply appends_write_T|].
      intros _. apply appends_write_T.
Qed.
End cap.

(** X9. The break offset is a cap for every write operation: set to [B]
    on an encoder whose buffer is no longer than [B], it keeps the buffer
    at [B] bytes or fewer through the primitive write, the embedding, the
    typed write and each derived writer, whether they return or throw
    part-way (for buffers that fit [size_t]). *)
Theorem break_offset_caps_every_write
    (B : Z) (op : write_operation) (s : buffer_serializer.t) :
  let s' := (perform op (buffer_serializer.set_break_offset B s)).2 in
  Z.of_nat (length (buffer_serializer.buffer_ s)) ≤ B →
  Z.of_nat (length (buffer_serializer.buffer_ s')) < 2 ^ 64 →
  Z.of_nat (length (buffer_serializer.buffer_ s')) ≤ B ∧
  buffer_serializer.break_offset_ s' = Some B.
Proof. intros s' Hle Hfit. by apply (capped_perform B op). Qed.

Lemma break_offset_caps_every_write_witness :
  Z.of_nat (length (buffer_serializer.buffer_
    (perform (Write_string [[x61]; [x62]; [x63]])
       (buffer_serializer.set_break_offset 12 buffer_serializer.init)).2)) ≤ 12 ∧
  buffer_serializer.break_offset_
    (perform (Write_string [[x61]; [x62]; [x63]])
       (buffer_serializer.set_break_offset 12 buffer_serializer.init)).2 = Some 12.
Proof.
  apply (break_offset_caps_every_write 12 (Write_string [[x61]; [x62]; [x63]])
           buffer_serializer.init).
  - vm_compute. discriminate.
  - reflexivity.
Defined.

(** ** What a read leaves behind *)

Section keeps.
Import buffer_deserializer.

Ltac keeps_done := cbn; split; [done|split; [done|lia]].

Lemma keeps_ret {A} (x : A) : keeps_source (mret x).
Proof. intros d Ho Hfit. keeps_done. Qed.

Lemma keeps_bind {A C} (m : M t A) (f : A → M t C) :
  keeps_source m → (∀ x, keeps_source (f x)) → keeps_source (m ≫= f).
Proof.
  intros Hm Hf d Ho Hfit. specialize (Hm d Ho Hfit).
  unfold mbind, M_bind. destruct (m d) as [[e|x] d1]; cbn [snd] in *; [done|].
  destruct Hm as (Hb & HF & Ho1).
  assert (size d1 = size d) as Hsize by (unfold size; by rewrite Hb).
  destruct (Hf x d1) as (Hb2 & HF2 & Ho2); [lia..|].
  split; [congruence|]. split; [congruence|]. lia.
Qed.

Lemma keeps_read_data length :
  0 ≤ length < 2 ^ 63 → keeps_source (read_data length).
Proof.
  intros Hl d Ho Hfit. rewrite read_data_unfold by lia.
  destruct (size d <? _) eqn:E; [keeps_done|].
  destruct (decide _); [keeps_done|]. apply Z.ltb_ge in E. keeps_done.
Qed.

Lemma keeps_construct_object T :
  has_deserializer_constructor T = None → keeps_source (construct_object T).
Proof.
  intros HT d Ho Hfit. unfold construct_object. rewrite HT.
  destruct (is_default_constructible T); [keeps_done|].
  destruct (factories_ d !! _); keeps_done.
Qed.

Lemma keeps_read_loop {A R} (r : M t A) (push : R → A → R) n acc :
  keeps_source r → keeps_source (read_loop r push n acc).
Proof.
  intros Hr. revert acc. induction n as [|n IH]; intros acc; cbn [read_loop].
  - apply keeps_ret.
  - apply keeps_bind; [done|]. intros v. apply IH.
Qed.

Lemma keeps_read_new_trivially_copyable C :
  plain_class C = true → keeps_source (read_new_trivially_copyable C).
Proof.
  unfold plain_class. intros [Hc Hsz%Z.ltb_lt]%andb_true_iff.
  apply keeps_bind.
  - apply keeps_construct_object. cbn. by destruct (deserializer_constructor C).
  - intros object. apply keeps_bind; [|intros; apply keeps_ret].
    apply keeps_bind; [|intros; apply keeps_ret]. apply keeps_read_data. lia.
Qed.

Lemma keeps_read_uint64_t : keeps_source read_uint64_t.
Proof.
  apply keeps_bind; [|intros; apply keeps_ret].
  by apply keeps_read_new_trivially_copyable.
Qed.

Lemma keeps_counted {A R} (r : M t A) (push : R → A → R) (acc : R) :
  keeps_source r →
  keeps_source (size ← read_uint64_t; read_loop r push (Z.to_nat size) acc).
Proof.
  intros Hr. apply keeps_bind; [apply keeps_read_uint64_t|].
  intros size. by apply keeps_read_loop.
Qed.

Lemma keeps_reserve max_size size : keeps_source (reserve max_size size).
Proof.
  intros d Ho Hfit. unfold reserve. destruct (max_size <? _); keeps_done.
Qed.

Lemma keeps_counted_reserve {A R} (r : M t A) (push : R → A → R) (acc : R) max_size :
  keeps_source r →
  keeps_source (size ← read_uint64_t;
                reserve max_size size ;; read_loop r push (Z.to_nat size) acc).
Proof.
  intros Hr. apply keeps_bind; [apply keeps_read_uint64_t|].
  intros size. apply keeps_bind; [apply keeps_reserve|].
  intros _. by apply keeps_read_loop.
Qed.

Lemma keeps_read_T T object : plain_type T = true → keeps_source (read_T T object).
Proof.
  destruct T as [C| |C max_size]; cbn [plain_type read_T]; intros HT.
  - unfold plain_class in HT. apply andb_true_iff in HT as [_ Hsz%Z.ltb_lt].
    apply keeps_bind; [|intros; apply keeps_ret].
    apply keeps_bind; [|intros; apply keeps_ret]. apply keeps_read_data. lia.
  - apply keeps_bind; [|intros; apply keeps_ret].
    apply keeps_bind; [|intros; apply keeps_ret].
    by apply keeps_read_new_trivially_copyable.
  - apply keeps_bind; [|intros; apply keeps_ret].
    apply keeps_counted_reserve. apply keeps_bind; [|intros; apply keeps_ret].
    by apply keeps_read_new_trivially_copyable.
Qed.

Lemma keeps_read_new T : plain_type T = true → keeps_source (read_new T).
Proof.
  intros HT. apply keeps_bind; [|intros; by apply keeps_read_T].
  apply keeps_construct_object. destruct T as [C| |C]; cbn in *; [|done..].
  unfold plain_class in HT. by destruct (deserializer_constructor C).
Qed.

Lemma keeps_read_value S target :
  plain_shape S = true → keeps_source (read_value S target).
Proof.
  destruct S as [T|T|T|T|K V]; cbn [plain_shape read_value]; intros HS.
  - by apply keeps_read_T.
  - apply keeps_bind.
    + apply keeps_bind; [by apply keeps_read_new|intros; apply keeps_ret].
    + intros [|]; [|apply keeps_ret].
      apply keeps_bind; [by apply keeps_read_new|intros; apply keeps_ret].
  - apply keeps_counted_reserve. by apply keeps_read_new.
  - apply keeps_counted. by apply keeps_read_new.
  - apply andb_true_iff in HS as [HK HV]. apply keeps_counted.
    apply keeps_bind; [by apply keeps_read_new|]. intros key.
    apply keeps_bind; [by apply keeps_read_new|intros; apply keeps_ret].
Qed.
End keeps.

(** X10. Whatever a read does, return or throw anywhere on its way, it
    leaves the source and the factories as they were and the cursor where
    it was or further on, never past the end of the source; the remaining
    size stays the distance from the cursor to the end. This holds for
    the typed read and each derived reader over types that the header
    reads with its own code (no constructor from the decoder), on a
    source shorter than [2^63] bytes. *)
Theorem reads_keep_the_source
    (S : shape) (target : denote S) (d : buffer_deserializer.t) :
  let d' := (read_value S target d).2 in
  plain_shape S = true →
  0 ≤ buffer_deserializer.offset_ d ≤ buffer_deserializer.size d →
  buffer_deserializer.size d < 2 ^ 63 →
  buffer_deserializer.buffer_ d' = buffer_deserializer.buffer_ d ∧
  buffer_deserializer.factories_ d' = buffer_deserializer.factories_ d ∧
  buffer_deserializer.get_offset d ≤ buffer_deserializer.get_offset d'
    ≤ buffer_deserializer.size d ∧
  buffer_deserializer.get_remaining_size d'
  = buffer_deserializer.size d - buffer_deserializer.get_offset d'.
Proof.
  intros d' HS Ho Hfit.
  destruct (keeps_read_value S target HS d Ho Hfit) as (Hb & HF & Ho').
  fold d' in Hb, HF, Ho'. unfold buffer_deserializer.get_offset.
  split; [done|]. split; [done|]. split; [done|].
  unfold buffer_deserializer.get_remaining_size, buffer_deserializer.size.
  rewrite Hb. apply size_t_small. unfold buffer_deserializer.size in *. lia.
Qed.

Lemma reads_keep_the_source_witness :
  buffer_deserializer.get_offset
    (read_value (Vector (trivially_copyable buffer_deserializer.int32_t_) sample_max_size) []
       (buffer_deserializer.init
          [x08; x02; x00; x00; x00; x00; x00; x00; x00; x04; x07; x00; x00; x00])).2
  ≤ 14.
Proof.
  destruct (reads_keep_the_source
              (Vector (trivially_copyable buffer_deserializer.int32_t_) sample_max_size) []
              (buffer_deserializer.init
                 [x08; x02; x00; x00; x00; x00; x00; x00; x00; x04; x07; x00; x00; x00]))
    as (_ & _ & [_ Hle] & _).
  - reflexivity.
  - vm_compute. split; discriminate.
  - reflexivity.
  - exact Hle.
Defined.

(** ** Values one after the other *)

Lemma encodes_fields F (fields members : list field) :
  forallb (λ f : field,
    has_type (projT1 f) (projT2 f) && supported F (projT1 f)) fields = true →
  projT1 <$> members = projT1 <$> fields →
  encodes F 0 (write_fields fields) (read_fields members) fields.
Proof.
  revert members. induction fields as [|[S v] fields IH]; intros members Hok Hsh.
  - destruct members; [|done]. apply encodes_ret.
  - destruct members as [|[S' target] members]; [done|].
    cbn [fmap list_fmap projT1] in Hsh. injection Hsh as -> Hsh.
    cbn [forallb projT1 projT2] in Hok.
    apply andb_true_iff in Hok as [[Hty Hs]%andb_true_iff Hok].
    unfold write_fields. cbn [for_each read_fields projT1 projT2].
    apply (encodes_weaken F (1 + 0)); [lia|].
    eapply encodes_bind; [by apply encodes_write_value|].
    apply (encodes_fmap F 0 _ _ (λ rest, (existT S v : field) :: rest)).
    by apply IH.
Qed.

(** X11. Round trips compose: values of supported shapes written one
    after the other, anywhere in a buffer, are read back in the same
    order by the mirrored readers, each read starting where the one
    before it stopped and the last one stopping at the end. *)
Theorem fields_round_trip
    (F : gmap string (unit → object_t)) (fields members : list field)
    (s s' : buffer_serializer.t) :
  forallb (λ f : field,
    has_type (projT1 f) (projT2 f) && supported F (projT1 f)) fields = true →
  projT1 <$> members = projT1 <$> fields →
  write_fields fields s = (inr (), s') →
  Z.of_nat (length (buffer_serializer.buffer_ s')) < 2 ^ 64 →
  read_fields members
    (buffer_deserializer.mk (Z.of_nat (length (buffer_serializer.buffer_ s)))
       (buffer_serializer.buffer_ s') F)
  = (inr fields,
     buffer_deserializer.mk (Z.of_nat (length (buffer_serializer.buffer_ s')))
       (buffer_serializer.buffer_ s') F).
Proof.
  intros Hok Hsh Hw Hfit.
  destruct (encodes_fields F fields members Hok Hsh s s' Hw) as (bytes & -> & _ & Hd).
  cbn [buffer_serializer.buffer_] in *.
  specialize (Hd (buffer_serializer.buffer_ s) []). rewrite !app_nil_r in Hd.
  by apply Hd.
Qed.

Lemma fields_round_trip_witness :
  read_fields sample_members
    (buffer_deserializer.of_serializer
       (write_fields sample_fields buffer_serializer.init).2)
  = (inr sample_fields,
     buffer_deserializer.mk 22
       (buffer_serializer.buffer_
          (write_fields sample_fields buffer_serializer.init).2) ∅).
Proof.
  apply (fields_round_trip ∅ sample_fields sample_members buffer_serializer.init
           (write_fields sample_fields buffer_serializer.init).2);
    reflexivity.
Defined.

(** ** A typed write that meets the break offset part-way *)

(** X12. The break offset stops a typed write between two of its frames:
    a string whose count and first characters fit before [B] and whose
    next character does not throws [BreakOffsetError] and leaves the count
    frame and the frames of the characters written until then in the
    buffer. Only the primitive write is all or nothing. *)
Theorem write_string_stops_part_way
    (B : Z) (s : buffer_serializer.t) (before : list (list byte)) (c : list byte)
    (after : list (list byte)) :
  let str := before ++ c :: after in
  let count := to_bytes 8 (size_t (Z.of_nat (length str))) in
  let written := buffer_serializer.buffer_ s ++ frame count ++ frames before in
  Z.of_nat (length written) ≤ B →
  B < Z.of_nat (length (written ++ frame c)) →
  Z.of_nat (length (written ++ frame c)) < 2 ^ 64 →
  buffer_serializer.write_T (String_ str) (buffer_serializer.set_break_offset B s)
  = (inl BreakOffsetError, buffer_serializer.mk written (Some B)).
Proof.
  intros str count written Hle Hpast Hfit.
  change (buffer_serializer.write_T (String_ str))
    with (for_each buffer_serializer.write ((count :: before) ++ c :: after)).
  unfold buffer_serializer.set_break_offset.
  erewrite for_each_app_inr; last first.
  { apply for_each_write_before_break_offset.
    - exact Hle.
    - rewrite length_app in Hfit. unfold written in Hfit.
      change (frames (count :: before)) with (frame count ++ frames before). lia. }
  cbn [for_each]. apply bind_inl.
  change (frames (count :: before)) with (frame count ++ frames before).
  fold written. rewrite write_before_break_offset by done.
  apply Z.ltb_lt in Hpast. by rewrite Hpast.
Qed.

Lemma write_string_stops_part_way_witness :
  buffer_serializer.write_T (String_ [[x61]; [x62]; [x63]])
    (buffer_serializer.set_break_offset 12 buffer_serializer.init)
  = (inl BreakOffsetError,
     buffer_serializer.mk
       [x08; x03; x00; x00; x00; x00; x00; x00; x00; x01; x61] (Some 12)).
Proof.
  apply (write_string_stops_part_way 12 buffer_serializer.init [[x61]] [x62] [[x63]]).
  - vm_compute. discriminate.
  - reflexivity.
  - reflexivity.
Defined.

(** ** Sequences: a count that promises too much *)

Section truncated.
Import buffer_deserializer.
Context (F : gmap string (unit → object_t)) (C : class_).
Context (HC : constructible F (trivially_copyable C) = true).


End truncated.



(** ** An optional of a type the decoder cannot construct *)

(** X14. For a present optional, [read_optional] with a closure fills the
    object the closure makes and needs nothing else, where the plain
    [read_optional] of a type without constructor from the decoder,
    default constructor or registered factory reads the flag and then
    throws [ConstructionError]. *)
Theorem read_optional_with_factory
    (F : gmap string (unit → object_t)) (T : type) (v : object_t)
    (target : option object_t) (factory : unit → object_t)
    (s s' : buffer_serializer.t) :
  let decoder :=
    buffer_deserializer.mk (Z.of_nat (length (buffer_serializer.buffer_ s)))
      (buffer_serializer.buffer_ s') F in
  object_has_type T v = true → readable F T = true →
  buffer_serializer.write_optional buffer_serializer.write_T (Some v) s = (inr (), s') →
  Z.of_nat (length (buffer_serializer.buffer_ s')) < 2 ^ 64 →
  buffer_deserializer.read_optional_factory (buffer_deserializer.read_T T)
    target factory decoder
  = (inr (Some v),
     buffer_deserializer.mk (Z.of_nat (length (buffer_serializer.buffer_ s')))
       (buffer_serializer.buffer_ s') F) ∧
  (buffer_deserializer.has_deserializer_constructor T = None →
   buffer_deserializer.is_default_constructible T = None →
   F !! buffer_deserializer.type_index T = None →
   buffer_deserializer.read_optional (buffer_deserializer.read_new T) target decoder
   = (inl (ConstructionError (buffer_deserializer.type_index T)),
      buffer_deserializer.mk (Z.of_nat (length (buffer_serializer.buffer_ s)) + 2)
        (buffer_serializer.buffer_ s') F)).
Proof.
  intros decoder Hty Hr Hw Hfit. subst decoder.
  unfold buffer_serializer.write_optional in Hw.
  rewrite bool_decide_eq_true_2 in Hw by done.
  split.
  - assert (encodes F (1 + 1)
              (buffer_serializer.write_bool true ;; buffer_serializer.write_T v)
              (buffer_deserializer.read_optional_factory
                 (buffer_deserializer.read_T T) target factory) (Some v)) as He.
    { unfold buffer_deserializer.read_optional_factory.
      eapply encodes_bind; [apply encodes_read_bool|].
      apply (encodes_fmap F 1 _ _ Some). by apply encodes_write_T. }
    destruct (He s s' Hw) as (bytes & -> & _ & Hd).
    cbn [buffer_serializer.buffer_] in *.
    specialize (Hd (buffer_serializer.buffer_ s) []). rewrite !app_nil_r in Hd.
    by apply Hd.
  - intros Hnc Hnd HnF.
    apply bind_inv_inr in Hw as ([] & s1 & Hw1 & Hw2).
    destruct (encodes_read_bool F true s s1 Hw1) as (b1 & Hs1 & _ & Hd).
    pose proof (write_inr _ _ _ Hw1) as Hs1'. rewrite Hs1 in Hs1'.
    injection Hs1' as Hb1%app_inv_head. subst b1 s1.
    destruct (appends_write_T v (buffer_serializer.mk
                (buffer_serializer.buffer_ s ++ frame [x01])
                (buffer_serializer.break_offset_ s))) as [k Hk].
    rewrite Hw2 in Hk. cbn [snd buffer_serializer.buffer_] in Hk. rewrite Hk in *.
    specialize (Hd (buffer_serializer.buffer_ s) k).
    rewrite <- !app_assoc in *. unfold buffer_deserializer.read_optional.
    erewrite bind_inr by (by apply Hd).
    apply bind_inl. unfold buffer_deserializer.read_new. apply bind_inl.
    unfold buffer_deserializer.construct_object. rewrite Hnc, Hnd.
    cbn [buffer_deserializer.factories_]. rewrite HnF. unfold throw.
    do 2 f_equal. rewrite length_app. cbn [frame length]. lia.
Qed.

Lemma read_optional_with_factory_witness :
  buffer_deserializer.read_optional_factory
    (buffer_deserializer.read_T (trivially_copyable handle_)) None
    (λ _, Trivial (replicate 8 xff))
    (buffer_deserializer.init (x01 :: x01 :: frame (to_bytes 8 7)))
  = (inr (Some (Trivial (to_bytes 8 7))),
     buffer_deserializer.mk 11 (x01 :: x01 :: frame (to_bytes 8 7)) ∅).
Proof.
  destruct (read_optional_with_factory ∅ (trivially_copyable handle_)
              (Trivial (to_bytes 8 7)) None (λ _, Trivial (replicate 8 xff))
              buffer_serializer.init
              (buffer_serializer.mk (x01 :: x01 :: frame (to_bytes 8 7)) None))
    as [Hok _]; [reflexivity..|exact Hok].
Defined.

(** ** One layout for every sequence *)

Lemma for_each_fmap {S A C} (body : C → M S unit) (g : A → C) (l : list A) s :
  for_each body (g <$> l) s = for_each (λ x, body (g x)) l s.
Proof.
  revert s. induction l as [|x l IH]; intros s; cbn [for_each fmap list_fmap]; [done|].
  unfold mbind, M_bind. destruct (body (g x) s) as [[e|[]] s1]; [done|]. apply IH.
Qed.

Lemma emits_for_each_concat {A} (body : A → M buffer_serializer.t unit)
    (enc : A → list byte) (range : list A) :
  (∀ v, emits (body v) (enc v)) → emits (for_each body range) (concat (enc <$> range)).
Proof.
  intros Hb. induction range as [|v vs IH]; cbn [for_each fmap list_fmap concat].
  - apply emits_ret.
  - by apply emits_bind.
Qed.

Lemma emits_write_T_alone object :
  emits (buffer_serializer.write_T object)
    (buffer_serializer.buffer_
       (buffer_serializer.write_T object buffer_serializer.init).2).
Proof.
  destruct (emits_write_T object) as [bytes Hb].
  by rewrite (emits_init _ _ Hb).
Qed.

(** X15. Vectors, lists and strings share one layout: the count as a
    frame of eight bytes, then the elements one after the other, each as
    the typed write emits it on its own. [write_list] and [write_vector]
    emit the same bytes for the same elements, and a string is written as
    the vector of its characters. *)
Theorem sequences_share_one_layout
    (vec : list object_t) (chars : list (list byte)) (s : buffer_serializer.t) :
  let element := λ v,
    buffer_serializer.buffer_ (buffer_serializer.write_T v buffer_serializer.init).2 in
  buffer_serializer.write_list buffer_serializer.write_T vec s
    = buffer_serializer.write_vector buffer_serializer.write_T vec s ∧
  buffer_serializer.write_T (String_ chars) s
    = buffer_serializer.write_vector buffer_serializer.write_T (Trivial <$> chars) s ∧
  (buffer_serializer.break_offset_ s = None →
     buffer_serializer.write_vector buffer_serializer.write_T vec s
     = (inr (),
        buffer_serializer.mk
          (buffer_serializer.buffer_ s
             ++ frame (to_bytes 8 (size_t (Z.of_nat (length vec))))
             ++ concat (element <$> vec)) None)).
Proof.
  intros element. split; [done|]. split.
  - cbn [buffer_serializer.write_T].
    unfold buffer_serializer.write_string, buffer_serializer.write_vector,
      buffer_serializer.write_span.
    rewrite length_fmap. unfold mbind, M_bind.
    destruct (buffer_serializer.write_uint64_t _ s) as [[e|[]] s1]; [done|].
    by rewrite for_each_fmap.
  - intros Hbo.
    assert (emits (buffer_serializer.write_vector buffer_serializer.write_T vec)
              (frame (to_bytes 8 (size_t (Z.of_nat (length vec))))
                 ++ concat (element <$> vec))) as He.
    { apply emits_bind; [apply emits_write|].
      apply emits_for_each_concat. intros v. apply emits_write_T_alone. }
    by apply He.
Qed.

(** ** A map read from a source that repeats a key *)

Section emplace.
Import buffer_deserializer.
Context {K V : Type} (less : K → K → bool).
Context (less_irreflexive : ∀ a, less a a = false).
Context (less_transitive :
  ∀ a b c, less a b = true → less b c = true → less a c = true).
Context (equivalent_transitive :
  ∀ a b c, equivalent less a b = true → equivalent less b c = true →
           equivalent less a c = true).

Lemma less_asymmetric a b : less a b = true → less b a = false.
Proof.
  intros Hab. destruct (less b a) eqn:Hba; [|done].
  pose proof (less_transitive a b a Hab Hba) as Haa.
  by rewrite less_irreflexive in Haa.
Qed.

Lemma equivalent_sym a b : equivalent less a b = equivalent less b a.
Proof. unfold equivalent. apply andb_comm. Qed.

Lemma less_not_equivalent a b : less a b = true → equivalent less a b = false.
Proof. intros Hab. unfold equivalent. by rewrite Hab. Qed.

(** A key equivalent to [a] is not equivalent to a key above [a]. *)
Lemma not_equivalent_above key a b :
  equivalent less key a = true → less a b = true → equivalent less key b = false.
Proof.
  intros Hka Hab. destruct (equivalent less key b) eqn:Hkb; [|done].
  rewrite equivalent_sym in Hka.
  pose proof (equivalent_transitive a key b Hka Hkb) as Heq.
  by rewrite less_not_equivalent in Heq.
Qed.

Lemma strictly_increasing_cons (k : K) keys :
  strictly_increasing less (k :: keys) = true ↔
  Forall (λ k', less k k' = true ∧ less k' k = false) keys
  ∧ strictly_increasing less keys = true.
Proof.
  cbn [strictly_increasing]. rewrite andb_true_iff. split; intros [Hk Hkeys].
  - split; [|done]. apply forallb_Forall in Hk.
    eapply Forall_impl; [exact Hk|].
    by intros k' [? ?%negb_true_iff]%andb_true_iff.
  - split; [|done]. apply forallb_forall. intros k' Hin.
    rewrite Forall_forall in Hk. destruct (Hk k') as [-> ->]; [|done].
    by apply list_elem_of_In.
Qed.

Lemma emplace_Forall (P : K * V → Prop) map entry :
  Forall P map → P entry → Forall P (emplace less map entry).
Proof.
  intros Hmap Hentry. induction Hmap as [|e rest He Hrest IH]; cbn [emplace].
  - by constructor.
  - destruct (less entry.1 e.1); [by repeat constructor|].
    destruct (less e.1 entry.1); by constructor.
Qed.

(** [emplace] keeps the entries in the order of their keys. *)
Lemma emplace_increasing (map : list (K * V)) entry :
  strictly_increasing less map.*1 = true →
  strictly_increasing less (emplace less map entry).*1 = true.
Proof.
  induction map as [|e rest IH]; intros Hinc; [done|].
  cbn [fmap list_fmap] in Hinc.
  apply strictly_increasing_cons in Hinc as [He Hrest].
  cbn [emplace]. destruct (less entry.1 e.1) eqn:H1.
  - cbn [fmap list_fmap]. apply strictly_increasing_cons. split.
    + constructor; [split; [done|by apply less_asymmetric]|].
      eapply Forall_impl; [exact He|]. intros k' [Hk _].
      pose proof (less_transitive _ _ _ H1 Hk) as Hlt.
      split; [done|by apply less_asymmetric].
    + by apply strictly_increasing_cons.
  - destruct (less e.1 entry.1) eqn:H2; cbn [fmap list_fmap].
    + apply strictly_increasing_cons. split; [|by apply IH].
      apply Forall_fmap. apply emplace_Forall; [by apply Forall_fmap in He|done].
    + by apply strictly_increasing_cons.
Qed.

Lemma find_none {A} (f : A → bool) (l : list A) :
  Forall (λ x, f x = false) l → find f l = None.
Proof. induction 1 as [|x l Hx _ IH]; cbn [find]; [done|by rewrite Hx]. Qed.

(** Looking a key up after an [emplace]: the entry already there for it,
    and the new entry only when there is none. *)
Lemma find_emplace key (map : list (K * V)) entry :
  strictly_increasing less map.*1 = true →
  find (λ e : K * V, equivalent less key e.1) (emplace less map entry)
  = match find (λ e : K * V, equivalent less key e.1) map with
    | Some e => Some e
    | None => if equivalent less key entry.1 then Some entry else None
    end.
Proof.
  induction map as [|e rest IH]; intros Hinc; [done|].
  cbn [fmap list_fmap] in Hinc.
  apply strictly_increasing_cons in Hinc as [He Hrest].
  cbn [emplace]. destruct (less entry.1 e.1) eqn:H1.
  - cbn [find]. destruct (equivalent less key entry.1) eqn:Hk.
    + rewrite (not_equivalent_above key entry.1 e.1) by done.
      rewrite find_none; [done|].
      apply Forall_fmap in He. eapply Forall_impl; [exact He|].
      intros e' [He' _]. cbn in He'.
      apply (not_equivalent_above key entry.1); [done|].
      by apply (less_transitive _ e.1).
    + destruct (equivalent less key e.1); [done|].
      by destruct (find _ rest).
  - destruct (less e.1 entry.1) eqn:H2; cbn [find];
      (destruct (equivalent less key e.1) eqn:Hke; [done|]).
    + by apply IH.
    + destruct (find _ rest); [done|].
      destruct (equivalent less key entry.1) eqn:Hk; [|done].
      assert (equivalent less entry.1 e.1 = true) as Hee
        by (unfold equivalent; by rewrite H1, H2).
      by rewrite (equivalent_transitive _ _ _ Hk Hee) in Hke.
Qed.

Lemma find_foldl_emplace key (l acc : list (K * V)) :
  strictly_increasing less acc.*1 = true →
  strictly_increasing less (foldl (emplace less) acc l).*1 = true ∧
  find (λ e : K * V, equivalent less key e.1) (foldl (emplace less) acc l)
  = match find (λ e : K * V, equivalent less key e.1) acc with
    | Some e => Some e
    | None => find (λ e : K * V, equivalent less key e.1) l
    end.
Proof.
  revert acc. induction l as [|x l IH]; intros acc Hacc; cbn [foldl].
  - split; [done|]. by destruct (find _ acc).
  - destruct (IH (emplace less acc x)) as [Hinc Hfind];
      [by apply emplace_increasing|].
    split; [done|]. rewrite Hfind, find_emplace by done. cbn [find].
    destruct (find _ acc); [done|]. by destruct (equivalent less key x.1).
Qed.
End emplace.

Lemma unsigned_less_irreflexive a : unsigned_less a a = false.
Proof. apply Z.ltb_irrefl. Qed.

Lemma unsigned_less_transitive a b c :
  unsigned_less a b = true → unsigned_less b c = true → unsigned_less a c = true.
Proof. unfold unsigned_less. rewrite !Z.ltb_lt. lia. Qed.

Lemma unsigned_equivalent_transitive a b c :
  equivalent unsigned_less a b = true → equivalent unsigned_less b c = true →
  equivalent unsigned_less a c = true.
Proof.
  unfold equivalent, unsigned_less.
  rewrite !andb_true_iff, !negb_true_iff, !Z.ltb_ge. lia.
Qed.

(** X16. [read_map] emplaces into a [std::map]: from a source whose
    entries repeat a key (what [write_map] emits for a container that
    holds equivalent keys, such as a [std::multimap]) it keeps, for each
    key, the first entry whose key is equivalent to it under the
    comparator of the map, key and value, and drops the later ones; the
    map holds its entries in the order of their keys; [read_map] still
    reads every entry and stops at the end of the last. *)
Theorem read_map_keeps_first_entry
    (F : gmap string (unit → object_t)) (K V : type)
    (less : object_t → object_t → bool)
    (entries target : list (object_t * object_t))
    (s s' : buffer_serializer.t) :
  (∀ a, less a a = false) →
  (∀ a b c, less a b = true → less b c = true → less a c = true) →
  (∀ a b c, equivalent less a b = true → equivalent less b c = true →
            equivalent less a c = true) →
  element F K = true → element F V = true →
  forallb (λ e, object_has_type K e.1 && object_has_type V e.2) entries = true →
  buffer_serializer.write_map buffer_serializer.write_T buffer_serializer.write_T
    entries s
  = (inr (), s') →
  Z.of_nat (length (buffer_serializer.buffer_ s')) < 2 ^ 64 →
  ∃ map : list (object_t * object_t),
    buffer_deserializer.read_map less
      (buffer_deserializer.read_new K) (buffer_deserializer.read_new V) target
      (buffer_deserializer.mk (Z.of_nat (length (buffer_serializer.buffer_ s)))
         (buffer_serializer.buffer_ s') F)
    = (inr map,
       buffer_deserializer.mk (Z.of_nat (length (buffer_serializer.buffer_ s')))
         (buffer_serializer.buffer_ s') F) ∧
    strictly_increasing less map.*1 = true ∧
    ∀ key, find (λ e, equivalent less key e.1) map
           = find (λ e, equivalent less key e.1) entries.
Proof.
  intros Hirr Hlt Heqv HK HV Hty Hw Hfit.
  exists (foldl (buffer_deserializer.emplace less) [] entries). split.
  - assert (encodes F 1
      (buffer_serializer.write_map buffer_serializer.write_T buffer_serializer.write_T
         entries)
      (buffer_deserializer.read_map less
         (buffer_deserializer.read_new K) (buffer_deserializer.read_new V) target)
      (foldl (buffer_deserializer.emplace less) [] entries)) as He.
    { apply encodes_counted.
      apply forallb_Forall in Hty. eapply Forall_impl; [exact Hty|].
      intros [k x] [Hk Hx]%andb_true_iff. cbn [fst snd] in *.
      apply (encodes_weaken F (1 + 1)); [lia|].
      eapply encodes_bind; [by apply encodes_read_new|].
      apply (encodes_fmap F 1 _ _ (λ value, (k, value))). by apply encodes_read_new. }
    destruct (He s s' Hw) as (bytes & -> & _ & Hd).
    cbn [buffer_serializer.buffer_] in *.
    specialize (Hd (buffer_serializer.buffer_ s) []). rewrite !app_nil_r in Hd.
    by apply Hd.
  - split.
    + by apply (find_foldl_emplace less Hirr Hlt Heqv (Trivial []) entries []).
    + intros key.
      by destruct (find_foldl_emplace less Hirr Hlt Heqv key entries [] eq_refl)
        as [_ ->].
Qed.

Lemma read_map_keeps_first_entry_witness :
  let entries :=
    [(Trivial [x05], Boolean false); (Trivial [x03], Boolean true);
     (Trivial [x05], Boolean true)] in
  let source :=
    frame (to_bytes 8 3)
      ++ [x01; x05; x01; x00; x01; x03; x01; x01; x01; x05; x01; x01] in
  ∃ map : list (object_t * object_t),
    buffer_deserializer.read_map unsigned_less
      (buffer_deserializer.read_new (trivially_copyable buffer_deserializer.uint8_t_))
      (buffer_deserializer.read_new bool_) []
      (buffer_deserializer.init source)
    = (inr map, buffer_deserializer.mk 21 source ∅) ∧
    strictly_increasing unsigned_less map.*1 = true ∧
    ∀ key, find (λ e, equivalent unsigned_less key e.1) map
           = find (λ e, equivalent unsigned_less key e.1) entries.
Proof.
  apply (read_map_keeps_first_entry ∅
           (trivially_copyable buffer_deserializer.uint8_t_) bool_ unsigned_less
           [(Trivial [x05], Boolean false); (Trivial [x03], Boolean true);
            (Trivial [x05], Boolean true)] []
           buffer_serializer.init
           (buffer_serializer.mk
              (frame (to_bytes 8 3)
                 ++ [x01; x05; x01; x00; x01; x03; x01; x01; x01; x05; x01; x01])
              None)).
  - exact unsigned_less_irreflexive.
  - exact unsigned_less_transitive.
  - exact unsigned_equivalent_transitive.
  - reflexivity.
  - reflexivity.
  - reflexivity.
  - reflexivity.
  - reflexivity.
Defined.

(** ** Equal buffers, equal values *)

Lemma get_diff_None_eq (this other : buffer_serializer.t) :
  buffer_serializer.get_diff this other = None →
  buffer_serializer.get_buffer this = buffer_serializer.get_buffer other.
Proof.
  unfold buffer_serializer.get_diff.
  set (b1 := buffer_serializer.get_buffer this).
  set (b2 := buffer_serializer.get_buffer other).
  pose proof (get_diff_loop_spec b1 b2 (length b1) 0 eq_refl) as Hloop.
  destruct (buffer_serializer.get_diff_loop b1 b2 (length b1) 0) as [j|]; [done|].
  destruct (decide (length b1 ≠ length b2)) as [|Hsize%dec_stable]; [done|].
  intros _. apply list_eq. intros k. destruct (decide (k < length b1)%nat).
  - apply Hloop; lia.
  - by rewrite !lookup_ge_None_2 by lia.
Qed.

(** X17. When [get_diff] finds no difference between two encoders that
    each hold one value of the same shape, the two values are equal: what
    the typed writes emit determines the value. *)
Theorem no_difference_means_equal_values
    (F : gmap string (unit → object_t)) (S : shape) (v1 v2 : denote S) :
  let e1 := (write_value S v1 buffer_serializer.init).2 in
  let e2 := (write_value S v2 buffer_serializer.init).2 in
  has_type S v1 = true → has_type S v2 = true → supported F S = true →
  Z.of_nat (length (buffer_serializer.buffer_ e1)) < 2 ^ 64 →
  buffer_serializer.get_diff e1 e2 = None →
  v1 = v2.
Proof.
  intros e1 e2 Hty1 Hty2 Hs Hfit Hdiff. apply get_diff_None_eq in Hdiff.
  subst e1 e2.
  destruct (emits_write_value S v1) as [b1 H1]. apply emits_init in H1.
  destruct (emits_write_value S v2) as [b2 H2]. apply emits_init in H2.
  rewrite H1, H2 in Hdiff. rewrite H1 in Hfit.
  cbn [snd buffer_serializer.get_buffer buffer_serializer.buffer_] in *. subst b2.
  pose proof (round_trip_from F S v1 v1 _ _ Hs Hty1 H1 Hfit) as R1.
  pose proof (round_trip_from F S v2 v1 _ _ Hs Hty2 H2 Hfit) as R2.
  rewrite R1 in R2. by injection R2.
Qed.

Lemma no_difference_means_equal_values_witness :
  String_ [[x61]; [x62]] = String_ [[x61]; [x62]].
Proof.
  apply (no_difference_means_equal_values ∅
           (Plain (basic_string buffer_deserializer.char_ sample_max_size))
           (String_ [[x61]; [x62]]) (String_ [[x61]; [x62]]));
    reflexivity.
Defined.

(** ** A decoder at the end of its source *)

Section exhausted.
Import buffer_deserializer.
Context (d : t).
Context (Hend : offset_ d = size d) (Hfit : size d < 2 ^ 63).





End exhausted.


